(** * wingsdk: construct nodes, addresses and the GCP function / schedule targets

    A shallow embedding of
      - [src/libs/wingsdk/src/std/node.ts]              (module [Node]),
      - [Display.of]                                     (module [Display]),
      - [src/libs/wingsdk/src/shared-aws/api.ts]        (module [Api]),
      - [src/libs/wingsdk/src/target-tf-gcp/function.ts] (module [GcpFunction]),
      - [src/libs/wingsdk/src/target-tf-gcp/schedule.ts] (module [Schedule]),
    followed by the properties the specification states about them. *)

From Stdlib Require Import ZArith Lia QArith Lqa.
From stdpp Require Import gmap strings list fin_maps.

Local Open Scope string_scope.
Local Open Scope Z_scope.

(** ** JavaScript primitives used by the sources *)

Module Js.

(** A number: a finite one is the rational it stands for (the two zeros are
    not told apart), and there are the two infinities and NaN. *)
Inductive number : Type :=
  | Finite (q : Q)
  | Infinity (negative : bool)
  | NaN.

(** the number that an integer literal denotes *)
Definition int (z : Z) : number := Finite (inject_Z z).

(** [a < b]: false whenever one side is NaN. *)
Definition lt (a b : number) : bool :=
  match a, b with
  | NaN, _ | _, NaN => false
  | Finite x, Finite y =>
      match Qcompare x y with
      | Lt => true
      | _ => false
      end
  | Finite _, Infinity negative => negb negative
  | Infinity negative, Finite _ => negative
  | Infinity na, Infinity nb => na && negb nb
  end.

(** [a > b] *)
Definition gt (a b : number) : bool := lt b a.

(** A number is truthy unless it is zero or NaN. *)
Definition truthy (a : number) : bool :=
  match a with
  | Finite q => negb (Qeq_bool q 0)
  | Infinity _ => true
  | NaN => false
  end.

(** The members that every plain object inherits from [Object.prototype];
    each of them reads as a function or an object, hence truthy. *)
Definition Object_prototype : list string :=
  ["constructor"; "__defineGetter__"; "__defineSetter__"; "hasOwnProperty";
   "__lookupGetter__"; "__lookupSetter__"; "isPrototypeOf";
   "propertyIsEnumerable"; "toString"; "valueOf"; "__proto__";
   "toLocaleString"].

Definition length (s : string) : Z := Z.of_nat (String.length s).

(** [s.substring(a, b)] for integral arguments: both indices are clamped
    to [0, length] and swapped when [a > b]. *)
Definition substring (a b : Z) (s : string) : string :=
  let len := length s in
  let a' := Z.min (Z.max a 0) len in
  let b' := Z.min (Z.max b 0) len in
  let lo := Z.min a' b' in
  let hi := Z.max a' b' in
  String.substring (Z.to_nat lo) (Z.to_nat (hi - lo)) s.

(** [s.slice(start)] : a negative [start] counts from the end of [s]. *)
Definition slice (start : Z) (s : string) : string :=
  let len := length s in
  let from := if start <? 0 then Z.max (len + start) 0 else Z.min start len in
  String.substring (Z.to_nat from) (Z.to_nat (len - from)) s.

(** [s.includes(t)] *)
Fixpoint includes (t s : string) : bool :=
  String.prefix t s ||
  match s with
  | EmptyString => false
  | String _ s' => includes t s'
  end.

End Js.

(** ** Character classes *)

Module Chars.
(** every character of [s] satisfies [p] *)
Fixpoint all_chars (p : Ascii.ascii -> bool) (s : string) : bool :=
  match s with
  | EmptyString => true
  | String c s' => p c && all_chars p s'
  end.

(** [0-9a-f] *)
Definition is_lower_hex (c : Ascii.ascii) : bool :=
  let n := Ascii.nat_of_ascii c in
  ((48 <=? n) && (n <=? 57) || (97 <=? n) && (n <=? 102))%nat.
End Chars.

(** ** SHA-1 (FIPS 180-4) on 32-bit words held in [Z] *)

Module Sha1.

Definition mask32 : Z := 0xFFFFFFFF.
Definition w32 (x : Z) : Z := Z.land x mask32.
Definition add32 (a b : Z) : Z := w32 (a + b).
Definition not32 (a : Z) : Z := Z.lxor a mask32.
Definition rotl (n x : Z) : Z :=
  w32 (Z.lor (Z.shiftl x n) (Z.shiftr x (32 - n))).

(** the bytes of a string (its UTF-8 encoding, as the digest sees it) *)
Definition bytes_of_string (s : string) : list Z :=
  map (fun c => Z.of_N (Ascii.N_of_ascii c)) (String.list_ascii_of_string s).

(** big-endian bytes of [x], [n] of them *)
Fixpoint be_bytes (n : nat) (x : Z) : list Z :=
  match n with
  | O => []
  | S n' => Z.land (Z.shiftr x (8 * Z.of_nat n')) 0xFF :: be_bytes n' x
  end.

Definition pad (msg : list Z) : list Z :=
  let l := Z.of_nat (List.length msg) in
  let zeros := Z.to_nat ((55 - l) mod 64) in
  (msg ++ [0x80] ++ repeat 0 zeros ++ be_bytes 8 (8 * l))%list.

Fixpoint chunks (fuel n : nat) (l : list Z) : list (list Z) :=
  match fuel, l with
  | O, _ | _, [] => []
  | S fuel', _ => take n l :: chunks fuel' n (drop n l)
  end.

Definition be_word (bs : list Z) : Z :=
  fold_left (fun acc b => Z.lor (Z.shiftl acc 8) b) bs 0.

Definition words_of_block (block : list Z) : list Z :=
  map be_word (chunks 16 4 block).

(** message schedule, most recent word first *)
Fixpoint expand (n : nat) (rev_ws : list Z) : list Z :=
  match n with
  | O => rev_ws
  | S n' =>
      let w := rotl 1 (Z.lxor (Z.lxor (nth 2 rev_ws 0) (nth 7 rev_ws 0))
                              (Z.lxor (nth 13 rev_ws 0) (nth 15 rev_ws 0))) in
      expand n' (w :: rev_ws)
  end.

Definition schedule (block : list Z) : list Z :=
  rev (expand 64 (rev (words_of_block block))).

Record regs := Regs { ra : Z; rb : Z; rc : Z; rd : Z; re : Z }.

Definition f_k (t : nat) (b c d : Z) : Z * Z :=
  if (t <? 20)%nat then
    (Z.lor (Z.land b c) (Z.land (not32 b) d), 0x5A827999)
  else if (t <? 40)%nat then
    (Z.lxor (Z.lxor b c) d, 0x6ED9EBA1)
  else if (t <? 60)%nat then
    (Z.lor (Z.lor (Z.land b c) (Z.land b d)) (Z.land c d), 0x8F1BBCDC)
  else
    (Z.lxor (Z.lxor b c) d, 0xCA62C1D6).

Definition round (r : regs) (tw : nat * Z) : regs :=
  let '(t, w) := tw in
  let '(f, k) := f_k t (rb r) (rc r) (rd r) in
  let temp := add32 (add32 (add32 (add32 (rotl 5 (ra r)) f) (re r)) k) w in
  Regs temp (ra r) (rotl 30 (rb r)) (rc r) (rd r).

Definition compress (h : regs) (block : list Z) : regs :=
  let r := fold_left round (combine (seq 0 80) (schedule block)) h in
  Regs (add32 (ra h) (ra r)) (add32 (rb h) (rb r)) (add32 (rc h) (rc r))
       (add32 (rd h) (rd r)) (add32 (re h) (re r)).

Definition init : regs :=
  Regs 0x67452301 0xEFCDAB89 0x98BADCFE 0x10325476 0xC3D2E1F0.

(** the digest as five 32-bit words *)
Definition digest (msg : list Z) : list Z :=
  let p := pad msg in
  let r := fold_left compress (chunks (List.length p) 64 p) init in
  [ra r; rb r; rc r; rd r; re r].

Definition hex_digit (n : Z) : Ascii.ascii :=
  match String.get (Z.to_nat (Z.land n 0xF)) "0123456789abcdef" with
  | Some c => c
  | None => Ascii.ascii_of_nat 48
  end.

(** [n] hex digits of [x], most significant first *)
Fixpoint hex_of (n : nat) (x : Z) : string :=
  match n with
  | O => ""
  | S n' => String (hex_digit (Z.shiftr x (4 * Z.of_nat n'))) (hex_of n' x)
  end.

(** [hash.digest('hex')] *)
Definition hex_digest (msg : list Z) : string :=
  String.concat "" (map (hex_of 8) (digest msg)).

End Sha1.

(** ** Errors and outcomes of calls that may throw *)

Inductive error : Type :=
  | DuplicateChildId (childName : string)
      (** "There is already a Construct with name ..." *)
  | LockedTreeMutation
      (** "Cannot add children ... during synthesis" *)
  | Error (message : string)
      (** [throw new Error(message)] *)
  | TypeError (message : string).
      (** what calling a member that is not a function throws *)

Inductive outcome (A : Type) : Type :=
  | Returned (a : A)
  | Thrown (e : error).
Arguments Returned {A} a.
Arguments Thrown {A} e.

(** ** The construct tree behind [Node] *)

(** [Node] (node.ts) keeps a reference to the construct's own node, of the
    [constructs] package, and forwards to it.  That package is not under
    src/: the tree is modelled from section 3 (the attributes of a node) and
    section 4.1 (the contract of the operations) of the specification, and
    from the docstrings that node.ts gives its forwarding methods, quoted at
    each definition. *)

Module Constructs.

(** A construct is named by its scope chain: its own id first, then the
    ids of the scopes that enclose it, innermost first; the root is [[]]. *)
Abbreviation IConstruct := (list string) (only parsing).

(** [IValidation]: an object with a zero-argument [validate()] that
    returns error messages. *)
Record IValidation : Type := { validate_fn : unit -> list string }.

(** Modelled from the spec: the state of one node (section 3: children
    "ordered mapping from id to child, insertion order preserved", locked,
    and the validators that [addValidation] accumulates). *)
Record ConstructsNode : Type := mkNode {
  _children : list string;          (** ids of the children, in insertion order *)
  _locked : bool;
  _validations : list IValidation;  (** in registration order *)
}.

Definition fresh_node : ConstructsNode := mkNode [] false [].

(** Modelled from the spec: the tree, as the id of its root and the state
    of every construct in it (section 3: "children ids are unique within a
    parent", so the scope chain names one construct). *)
Record Tree : Type := mkTree {
  root_id : string;
  nodes : gmap (list string) ConstructsNode;
}.

Definition new_tree (id : string) : Tree := mkTree id {[ [] := fresh_node ]}.

Definition scope (c : IConstruct) : option IConstruct :=
  match c with
  | [] => None
  | _ :: s => Some s
  end.

Definition id (t : Tree) (c : IConstruct) : string :=
  match c with
  | [] => root_id t
  | i :: _ => i
  end.

(** Modelled from the spec: glossary, "Path: ordered sequence of ids from
    root to a node." *)
Definition segments (t : Tree) (c : IConstruct) : list string :=
  root_id t :: rev c.

(** Modelled from the spec: the "reserved transparent-wrapper keyword" of
    4.2, which node.ts:116 names: "constructs with the ID `Default`". *)
Definition HIDDEN_ID : string := "Default".

(** Modelled from the spec: 4.2, "segments(node) is the ordered list of ids
    from root to node, with any segment equal to a reserved
    transparent-wrapper keyword removed before hashing"; node.ts:116-117:
    "constructs with the ID `Default` will be excluded from the
    calculation". *)
Definition hashed_segments (components : list string) : list string :=
  List.filter (fun c => negb (String.eqb c HIDDEN_ID)) components.

(** Modelled from the spec: the bytes that are hashed.  Neither the spec
    nor node.ts fixes how the segments are laid out for the digest; each
    kept segment is followed by a line feed here. *)
Definition hash_input (components : list string) : list Z :=
  flat_map (fun c => (Sha1.bytes_of_string c ++ [10])%list)
           (hashed_segments components).

(** Modelled from the spec: 4.2, "address(node) = tag ++ hex(hash(segments
    (node)))"; node.ts:110-114: addresses "begin with "c8" followed by 40
    lowercase hexadecimal characters", "calculated using a SHA-1 of the
    components of the construct path". *)
Definition addressOf (components : list string) : string :=
  "c8" +:+ Sha1.hex_digest (hash_input components).

(** Modelled from the spec: 4.2, the address of a node is that of its
    segments. *)
Definition addr (t : Tree) (c : IConstruct) : string :=
  addressOf (segments t c).

Definition node_of (t : Tree) (c : IConstruct) : ConstructsNode :=
  default fresh_node (nodes t !! c).

Definition children (t : Tree) (c : IConstruct) : list IConstruct :=
  map (fun i => i :: c) (_children (node_of t c)).

(** Modelled from the spec: node.ts:270, "Returns true if this construct or
    the scopes in which it is defined are locked." *)
Fixpoint locked (t : Tree) (c : IConstruct) : bool :=
  _locked (node_of t c) ||
  match c with
  | [] => false
  | _ :: s => locked t s
  end.

(** Modelled from the spec: the tree with one more child of [s], last
    among its children; the child starts with no children, no validations,
    unlocked. *)
Definition insert_child (t : Tree) (s : IConstruct) (childName : string) : Tree :=
  let push n := mkNode (_children n ++ [childName])%list (_locked n) (_validations n) in
  mkTree (root_id t) (<[childName :: s := fresh_node]> (alter push s (nodes t))).

(** Modelled from the spec: 4.1, "tree-building operations fail with
    DuplicateChildId if id collides with an existing sibling, and with
    LockedTreeMutation if the parent (or any ancestor) is locked";
    node.ts:330-331, "After this call, no more children can be added to
    this construct or to any children." *)
Definition addChild (t : Tree) (s : IConstruct) (childName : string)
  : outcome Tree :=
  if locked t s then Thrown LockedTreeMutation
  else if bool_decide (is_Some (nodes t !! (childName :: s)))
  then Thrown (DuplicateChildId childName)
  else Returned (insert_child t s childName).

(** Neither [c] nor anything beneath it is in the tree. *)
Definition unused (t : Tree) (c : IConstruct) : Prop :=
  forall d : IConstruct, c `suffix_of` d -> nodes t !! d = None.

(** Children can be added to [this] under any id outside [used]. *)
Definition ready (t : Tree) (this : IConstruct) (used : list string) : Prop :=
  locked t this = false
  /\ forall i, ~ In i used -> nodes t !! (i :: this) = None.

(** Modelled from the spec: 4.1, "lock(): marks this node"; a call on a
    construct of the tree. *)
Definition lock (t : Tree) (c : IConstruct) : Tree :=
  let set n := mkNode (_children n) true (_validations n) in
  mkTree (root_id t) (alter set c (nodes t)).

(** Modelled from the spec: 4.1, "addValidation ... accumulates
    zero-argument validators". *)
Definition addValidation (t : Tree) (c : IConstruct) (v : IValidation) : Tree :=
  let add n := mkNode (_children n) (_locked n) (_validations n ++ [v])%list in
  mkTree (root_id t) (alter add c (nodes t)).

(** Modelled from the spec: 4.1, "findAll(PREORDER): node before its
    descendants, children visited in insertion order, recursively".
    [depth] bounds the recursion; the size of the tree is enough. *)
Fixpoint findAll_upto (depth : nat) (t : Tree) (c : IConstruct)
  : list IConstruct :=
  match depth with
  | O => [c]
  | S d => c :: flat_map (findAll_upto d t) (children t c)
  end.

Definition findAll (t : Tree) (c : IConstruct) : list IConstruct :=
  findAll_upto (size (nodes t)) t c.

(** The validators that [addValidation] has accumulated on [c], in
    registration order. *)
Definition validations (t : Tree) (c : IConstruct) : list IValidation :=
  _validations (node_of t c).

(** What the validators [vs] return, one after the other. *)
Definition messages (vs : list IValidation) : list string :=
  flat_map (fun v => validate_fn v tt) vs.

(** Modelled from the spec: [validate] of the constructs package, not under
    src/ ([Node.validate], node.ts:325, forwards to it).  4.1: "validate()
    invokes every registered validator across the full subtree and returns
    the concatenation of all returned error strings - never throws,
    aggregates instead"; 7: validation errors are "collected and returned as
    a list of messages rather than thrown", "after a full subtree walk".  A
    validator reports by returning its messages; the subtree is walked as
    [findAll] walks it.  (The docstring that node.ts gives [validate],
    node.ts:316-324, speaks of the messages "associated with this
    construct"; the specification is what is followed here.) *)
Definition validate (t : Tree) (c : IConstruct) : outcome (list string) :=
  Returned (messages (flat_map (validations t) (findAll t c))).




End Constructs.

(** ** Id sequences up to the reserved wrapper id *)

Module Transparent.
Import Constructs.
(** Two id sequences that differ only by segments equal to the reserved
    id: one is obtained from the other by inserting or dropping such
    segments, everything else staying in place. *)
Inductive differ_only_by_hidden : list string -> list string -> Prop :=
  | dh_nil : differ_only_by_hidden [] []
  | dh_same x p q :
      differ_only_by_hidden p q -> differ_only_by_hidden (x :: p) (x :: q)
  | dh_left p q :
      differ_only_by_hidden p q -> differ_only_by_hidden (HIDDEN_ID :: p) q
  | dh_right p q :
      differ_only_by_hidden p q -> differ_only_by_hidden p (HIDDEN_ID :: q).
End Transparent.

(** ** Objects attached to constructs under a symbol key *)

Module Heap.
Import Constructs.

Definition loc : Type := nat.

Inductive symbol : Type := NODE_SYMBOL | DISPLAY_SYMBOL | CONNECTIONS_SYMBOL.

#[export] Instance symbol_eq_dec : EqDecision symbol.
Proof. solve_decision. Defined.

#[export] Instance symbol_countable : Countable symbol.
Proof.
  refine (inj_countable'
            (fun s => match s with
                      | NODE_SYMBOL => 0%nat
                      | DISPLAY_SYMBOL => 1%nat
                      | CONNECTIONS_SYMBOL => 2%nat
                      end)
            (fun n => match n with
                      | O => NODE_SYMBOL
                      | S O => DISPLAY_SYMBOL
                      | _ => CONNECTIONS_SYMBOL
                      end) _).
  intros []; reflexivity.
Defined.

(** [AddConnectionProps] *)
Record AddConnectionProps : Type := {
  source : IConstruct;
  target : IConstruct;
  name : string;
}.

(** The fields of a [Node] instance (node.ts:38-58). *)
Record NodeFields : Type := mkNodeFields {
  node_title : option string;
  node_description : option string;
  node_sourceModule : option string;
  node_hidden : option bool;
  _constructsNode : IConstruct;
  _connections : loc;
}.

(** The fields of a [Display] instance. *)
Record DisplayFields : Type := mkDisplayFields {
  title : option string;
  description : option string;
  sourceModule : option string;
  hidden : option bool;
}.

Inductive object : Type :=
  | NodeObject (n : NodeFields)
  | DisplayObject (d : DisplayFields)
  | ConnectionsObject (cs : list AddConnectionProps).

Record heap : Type := mkHeap {
  objects : list object;
    (** every object allocated so far; an object's identity is its index *)
  attached : gmap (IConstruct * symbol) loc;
    (** [construct[SYMBOL]] where it has been set; absent means [undefined] *)
}.

Definition empty : heap := mkHeap [] ∅.

(** [new C(...)]: the new object is distinct from every existing one. *)
Definition alloc (o : object) (h : heap) : loc * heap :=
  (List.length (objects h), mkHeap (objects h ++ [o])%list (attached h)).

Definition get_symbol (c : IConstruct) (s : symbol) (h : heap) : option loc :=
  attached h !! (c, s).

Definition set_symbol (c : IConstruct) (s : symbol) (l : loc) (h : heap) : heap :=
  mkHeap (objects h) (<[(c, s) := l]> (attached h)).

(** Modelled from the spec: [Connections.of] (core, not under src/); 4.4:
    "One registry instance per tree, reachable from any node's companion
    object (first access creates and caches it for the whole tree)". *)
Definition Connections_of (c : IConstruct) (h : heap) : loc * heap :=
  let root : IConstruct := [] in
  match get_symbol root CONNECTIONS_SYMBOL h with
  | Some l => (l, h)
  | None =>
      let '(l, h1) := alloc (ConnectionsObject []) h in
      (l, set_symbol root CONNECTIONS_SYMBOL l h1)
  end.

End Heap.

(** ** std/node.ts *)

Module Node.
Import Constructs Heap.

(** The private constructor (node.ts:60-63). *)
Definition new (construct : IConstruct) (h : heap) : loc * heap :=
  let '(connections, h1) := Connections_of construct h in
  alloc (NodeObject (mkNodeFields None None None None construct connections)) h1.

(** [Node.of] (node.ts:24-33); [of] is reserved here, hence [of_].  An
    object reference is always truthy, so [!node] holds exactly when the
    property is still undefined. *)
Definition of_ (construct : IConstruct) (h : heap) : loc * heap :=
  match get_symbol construct NODE_SYMBOL h with
  | Some node => (node, h)
  | None =>
      let '(node, h1) := new construct h in
      (node, set_symbol construct NODE_SYMBOL node h1)
  end.

(** [addConnection] (node.ts:69-71): [Connections.add] appends. *)
Definition addConnection (this : loc) (props : AddConnectionProps) (h : heap)
  : heap :=
  match objects h !! this with
  | Some (NodeObject n) =>
      match objects h !! _connections n with
      | Some (ConnectionsObject cs) =>
          mkHeap (<[_connections n := ConnectionsObject (cs ++ [props])%list]> (objects h))
                 (attached h)
      | _ => h
      end
  | _ => h
  end.

(** The accessors below forward to the construct's own node
    ([this._constructsNode]); a [Node] is given here by the construct it
    belongs to. *)
Definition addr (t : Tree) (this : IConstruct) : string :=
  Constructs.addr t this.

Definition locked (t : Tree) (this : IConstruct) : bool :=
  Constructs.locked t this.

Definition lock (t : Tree) (this : IConstruct) : Tree :=
  Constructs.lock t this.

Definition addValidation (t : Tree) (this : IConstruct) (validation : IValidation)
  : Tree :=
  Constructs.addValidation t this validation.

Definition validate (t : Tree) (this : IConstruct) : outcome (list string) :=
  Constructs.validate t this.

End Node.

(** ** Display *)

Module Display.
Import Constructs Heap.

Definition SDK_SOURCE_MODULE : string := "@winglang/sdk".

Definition new (h : heap) : loc * heap :=
  alloc (DisplayObject (mkDisplayFields None None None None)) h.

(** [Display.of], as [of_]. *)
Definition of_ (construct : IConstruct) (h : heap) : loc * heap :=
  match get_symbol construct DISPLAY_SYMBOL h with
  | Some display => (display, h)
  | None =>
      let '(display, h1) := new h in
      (display, set_symbol construct DISPLAY_SYMBOL display h1)
  end.

End Display.

(** ** Calls that reach the attached objects *)

Module Attach.
Import Constructs Heap.

Inductive call : Type :=
  | NodeOf (construct : IConstruct)
  | DisplayOf (construct : IConstruct)
  | AddConnection (node : loc) (props : AddConnectionProps).

Definition run_call (h : heap) (c : call) : heap :=
  match c with
  | NodeOf construct => snd (Node.of_ construct h)
  | DisplayOf construct => snd (Display.of_ construct h)
  | AddConnection node props => Node.addConnection node props h
  end.

Definition run_calls (cs : list call) (h : heap) : heap :=
  fold_left run_call cs h.

End Attach.

(** ** Sequences of tree operations *)

Module TreeOps.
Import Constructs.

Inductive op : Type :=
  | AddChild (scope : IConstruct) (id : string)
  | Lock (c : IConstruct)
  | AddValidation (c : IConstruct) (v : IValidation).

(** One call; a call that throws leaves the tree as it was. *)
Definition run_op (t : Tree) (o : op) : Tree :=
  match o with
  | AddChild s i =>
      match addChild t s i with
      | Returned t' => t'
      | Thrown _ => t
      end
  | Lock c => Node.lock t c
  | AddValidation c v => Node.addValidation t c v
  end.

Definition run_ops (os : list op) (t : Tree) : Tree := fold_left run_op os t.

(** The construct [node] is in the tree and carries the lock. *)
Definition is_locked_node (node : IConstruct) (t : Tree) : Prop :=
  exists n, nodes t !! node = Some n /\ _locked n = true.





End TreeOps.

(** ** shared-aws/api.ts *)

Module Api.

(** JavaScript values as far as [typeof] tells them apart. *)
Inductive value : Type :=
  | VUndefined
  | VNull
  | VBoolean (b : bool)
  | VNumber (n : Z)
  | VString (s : string)
  | VFunction
  | VObject.

Definition typeof (v : value) : string :=
  match v with
  | VUndefined => "undefined"
  | VNull => "object"
  | VBoolean _ => "boolean"
  | VNumber _ => "number"
  | VString _ => "string"
  | VFunction => "function"
  | VObject => "object"
  end.

(** A [cloud.Api] instance: an object, seen through its properties. *)
Definition object : Type := gmap string value.

(** [obj.key]: a property that is not there reads as [undefined]. *)
Definition get (obj : object) (key : string) : value :=
  default VUndefined (obj !! key).

Definition STAGE_NAME : string := "prod".

(** The properties of [IAwsApi] (api.ts:14-44). *)
Definition IAwsApi : list string :=
  ["restApiArn"; "restApiId"; "restApiName"; "stageName"; "invokeUrl";
   "deploymentId"].

(** [isAwsApi] (api.ts:62-71) *)
Definition isAwsApi (obj : object) : bool :=
  String.eqb (typeof (get obj "restApiArn")) "string" &&
  String.eqb (typeof (get obj "restApiId")) "string" &&
  String.eqb (typeof (get obj "restApiName")) "string" &&
  String.eqb (typeof (get obj "stageName")) "string" &&
  String.eqb (typeof (get obj "invokeUrl")) "string" &&
  String.eqb (typeof (get obj "deploymentId")) "string".

(** [Api.from] (api.ts:55-60); [None] is [undefined].  [api] is a
    [cloud.Api], an object: reading a property of it does not throw. *)
Definition from (api : object) : option object :=
  if isAwsApi api then Some api else None.

End Api.

(** ** Synthesis state shared by the target resources *)

Module Synth.
Import Constructs.

(** [std.Duration], read through [.seconds]. *)
Record Duration : Type := { seconds : Js.number }.

(** [cloud.FunctionProps]; every property is optional, [None] is
    [undefined]. *)
Record FunctionProps : Type := mkProps {
  env : option (gmap string string);
  memory : option Js.number;
  timeout : option Duration;
}.

(** An inflight handler ([IInflight]): its identity and its code. *)
Record Inflight : Type := { _id : string; _toInflight : string }.

Inductive CaseConventions : Type := LOWERCASE | UPPERCASE.

(** [NameOptions]; the pattern is kept as its source text. *)
Record NameOptions : Type := {
  maxLen : Z;
  disallowedRegex : string;
  case : CaseConventions;
  includeHash : option bool;
}.

Record CloudfunctionsFunctionConfig : Type := {
  cf_name : string;
  cf_description : string;
  cf_project : string;
  cf_region : string;
  cf_runtime : string;
  availableMemoryMb : Js.number;
  sourceArchiveBucket : string;
  sourceArchiveObject : string;
  entryPoint : string;
  triggerHttp : bool;
  cf_timeout : Js.number;
  environmentVariables : gmap string string;
}.

Record CloudSchedulerJobConfig : Type := {
  job_name : string;
  job_description : string;
  schedule : string;
  timeZone : string;
  attemptDeadline : string;
  httpMethod : string;
  uri : string;
  serviceAccountEmail : string;
  dependsOn : list IConstruct;
}.

(** What each construct of the tree was created as, with the configuration
    the provider resource classes receive. *)
Inductive Resource : Type :=
  | CloudSchedule
  | CloudFunction (inflight : Inflight) (props : FunctionProps)
  | TerraformAsset (path : string)
  | Id (byteLength : Z)
  | StorageBucket (name location project : string)
  | StorageBucketObject (name bucket source : string)
  | CloudfunctionsFunction (config : CloudfunctionsFunctionConfig)
  | ProjectService (service : string) (disableOnDestroy : bool)
  | ServiceAccount (accountId displayName : string)
  | CloudSchedulerJob (config : CloudSchedulerJobConfig).

(** The view [Function.from] gives of a GCP function. *)
Record GcpFunctionView : Type := { fn_name : string; httpsTriggerUrl : string }.

(** Code of the SDK that the two targets call and that is not under src/:
    what it returns is left open.  [Function.from] is not declared by
    function.ts either: the call gives a view or [undefined], or throws (a
    TypeError when no base class declares it). *)
Record Collaborators : Type := {
  projectId : string;                                   (** [app.projectId] *)
  storageLocation : string;                             (** [app.storageLocation] *)
  bundle_path : IConstruct -> string;
    (** [resolve(createBundle(this.entrypoint).directory)] *)
  generateName : Tree -> IConstruct -> NameOptions -> string;
    (** [ResourceNames.generateName] *)
  attribute : IConstruct -> string -> string;
    (** an attribute of a provider resource ([.hex], [.name], [.email]) *)
  convertBetweenHandlers : Inflight -> string -> string -> Inflight;
  Function_from : IConstruct -> outcome (option GcpFunctionView);
    (** [Function.from] *)
}.

(** The private fields of a [Schedule] instance (schedule.ts:19-21); the
    constructor sets [scheduleExpression] and starts with no handlers.
    [handlers] is a plain object: the map holds its own properties, and a
    read also finds what the object inherits ([Schedule.get_handler]). *)
Record ScheduleFields : Type := mkSchedule {
  scheduleExpression : string;
  handlers : gmap string IConstruct;
}.

Record World : Type := mkWorld {
  collab : Collaborators;
  tree : Tree;
  heap : Heap.heap;
  resources : gmap (list string) Resource;
  schedules : gmap (list string) ScheduleFields;
  _newInstanceIds : nat;   (** the counter behind [App.makeId] *)
}.

(** A computation that reads and updates the world and may throw; what
    was done before a throw stays done. *)
Definition M (A : Type) : Type := World -> outcome A * World.

Definition ret {A} (a : A) : M A := fun w => (Returned a, w).

Definition throw {A} (e : error) : M A := fun w => (Thrown e, w).

Definition bind {A B} (m : M A) (k : A -> M B) : M B :=
  fun w =>
    match m w with
    | (Returned a, w1) => k a w1
    | (Thrown e, w1) => (Thrown e, w1)
    end.

Definition gets {A} (f : World -> A) : M A := fun w => (Returned (f w), w).

(** a call that reads the world and returns or throws *)
Definition call {A} (f : World -> outcome A) : M A := fun w => (f w, w).

Definition modify (f : World -> World) : M unit := fun w => (Returned tt, f w).

Definition set_tree (t : Tree) (w : World) : World :=
  mkWorld (collab w) t (heap w) (resources w) (schedules w) (_newInstanceIds w).

Definition set_heap (h : Heap.heap) (w : World) : World :=
  mkWorld (collab w) (tree w) h (resources w) (schedules w) (_newInstanceIds w).

Definition set_resource (c : IConstruct) (r : Resource) (w : World) : World :=
  mkWorld (collab w) (tree w) (heap w) (<[c := r]> (resources w)) (schedules w)
          (_newInstanceIds w).

Definition set_schedule (c : IConstruct) (s : ScheduleFields) (w : World) : World :=
  mkWorld (collab w) (tree w) (heap w) (resources w) (<[c := s]> (schedules w))
          (_newInstanceIds w).

Definition bump_ids (w : World) : World :=
  mkWorld (collab w) (tree w) (heap w) (resources w) (schedules w)
          (S (_newInstanceIds w)).

Definition init (c : Collaborators) (root : string) : World :=
  mkWorld c (new_tree root) Heap.empty ∅ ∅ 0.

End Synth.

Notation "'let*' x ':=' m 'in' k" := (Synth.bind m (fun x => k))
  (at level 10, x pattern, m at level 100, k at level 200).

Module Construct.
Import Constructs Synth.

(** [new R(scope, id, config)]: the construct enters the tree as a child
    of [scope], or the constructor throws. *)
Definition new (scope : IConstruct) (id : string) (r : Resource) : M IConstruct :=
  fun w =>
    match addChild (tree w) scope id with
    | Thrown e => (Thrown e, w)
    | Returned t => (Returned (id :: scope), set_resource (id :: scope) r (set_tree t w))
    end.

(** The construct [c] is in the tree of [w]. *)
Definition has (w : World) (c : IConstruct) : Prop :=
  is_Some (nodes (tree w) !! c).

(** A computation whose thrown errors all satisfy [P]. *)
Definition throws_only {A} (P : error -> Prop) (m : M A) : Prop :=
  forall w e, fst (m w) = Thrown e -> P e.

(** A computation that returns only when [P] holds. *)
Definition returns_only {A} (P : Prop) (m : M A) : Prop :=
  forall w a, fst (m w) = Returned a -> P.

(** A computation that removes nothing from the tree. *)
Definition grows {A} (m : M A) : Prop :=
  forall w c, has w c -> has (snd (m w)) c.

End Construct.

(** ** target-tf-gcp/function.ts *)

Module GcpFunction.
Import Constructs Synth.

Definition FUNCTION_NAME_OPTS : NameOptions :=
  {| maxLen := 32; disallowedRegex := "/[^a-z0-9]+/g"; case := LOWERCASE;
     includeHash := None |}.

Definition BUCKET_NAME_OPTS : NameOptions :=
  {| maxLen := 54; case := LOWERCASE; disallowedRegex := "/([^a-z0-9_\-]+)/g";
     includeHash := Some false |}.

Definition MEMORY_ERROR : string :=
  "Memory must be between 128 and 8192 MB for GCP Cloud Functions".

Definition TIMEOUT_ERROR : string :=
  "Timeout must be between 1 and 540 seconds for GCP Cloud Functions".

(** function.ts:92, [props?.memory && (props.memory < 128 || props.memory > 8192)] *)
Definition memory_out_of_limits (props : FunctionProps) : bool :=
  match memory props with
  | None => false
  | Some m => Js.truthy m && (Js.lt m (Js.int 128) || Js.gt m (Js.int 8192))
  end.

(** function.ts:99-102; a [Duration] is an object, hence truthy when given. *)
Definition timeout_out_of_limits (props : FunctionProps) : bool :=
  match timeout props with
  | None => false
  | Some d => Js.lt (seconds d) (Js.int 1) || Js.gt (seconds d) (Js.int 540)
  end.

(** The constructor (function.ts:41-123). *)
Definition new (scope : IConstruct) (id : string) (inflight : Inflight)
    (props : FunctionProps) : M IConstruct :=
  let* this := Construct.new scope id (CloudFunction inflight props) in
  let* app := gets collab in
  let* asset := Construct.new this "Asset" (TerraformAsset (bundle_path app this)) in
  let* bucketName := gets (fun w => generateName app (tree w) this BUCKET_NAME_OPTS) in
  let* randomId := Construct.new this "Id" (Id 4) in
  let* bucket :=
    Construct.new this "Function_Bucket"
      (StorageBucket (bucketName +:+ "-" +:+ attribute app randomId "hex")
                     (storageLocation app) (projectId app)) in
  let* bucketObject :=
    Construct.new this "Function_Object_Bucket"
      (StorageBucketObject "objects" (attribute app bucket "name")
                           (attribute app asset "path")) in
  let* _ :=
    if memory_out_of_limits props then throw (Error MEMORY_ERROR) else ret tt in
  let* _ :=
    if timeout_out_of_limits props then throw (Error TIMEOUT_ERROR) else ret tt in
  let* name := gets (fun w => generateName app (tree w) this FUNCTION_NAME_OPTS) in
  let* function :=
    Construct.new this "Default_Function"
      (CloudfunctionsFunction
         {| cf_name := name;
            cf_description := "This function was created by Wing";
            cf_project := projectId app;
            cf_region := storageLocation app;
            cf_runtime := "nodejs16";
            availableMemoryMb := default (Js.int 128) (memory props);
            sourceArchiveBucket := attribute app bucket "name";
            sourceArchiveObject := attribute app bucketObject "name";
            entryPoint := "handler";
            triggerHttp := true;
            cf_timeout := default (Js.int 60) (seconds <$> timeout props);
            environmentVariables := default ∅ (env props) |}) in
  ret this.

(** The provider function that [new] synthesized for [this], if any. *)
Definition function (w : World) (this : IConstruct)
  : option CloudfunctionsFunctionConfig :=
  match resources w !! ("Default_Function" :: this) with
  | Some (CloudfunctionsFunction config) => Some config
  | _ => None
  end.

End GcpFunction.

(** ** target-tf-gcp/schedule.ts *)

Module Schedule.
Import Constructs Synth.

Definition fields (w : World) (this : IConstruct) : ScheduleFields :=
  default (mkSchedule "" ∅) (schedules w !! this).

(** Natural numbers in decimal, as a template literal prints them. *)
Definition digit (n : nat) : string :=
  String.substring (n mod 10) 1 "0123456789".

Fixpoint decimal_upto (fuel n : nat) : string :=
  match fuel with
  | O => digit n
  | S f => if (n <? 10)%nat then digit n else decimal_upto f (n / 10) +:+ digit n
  end.

Definition decimal (n : nat) : string := decimal_upto n n.

(** Modelled from the spec: [App.makeId] is not under src/ and the spec
    does not describe it; it hands out ids that are unique within the
    scope, here the prefix followed by a running number. *)
Definition makeId (scope : IConstruct) (prefix : string) : M string :=
  fun w => (Returned (prefix +:+ decimal (_newInstanceIds w)), bump_ids w).

(** What [onTick] hands back: the [Function] it created or found among the
    handlers, or, for a handler id that names a member of
    [Object.prototype], that member. *)
Inductive value : Type :=
  | FunctionObject (f : IConstruct)
  | PrototypeMember (key : string).

(** [this.handlers[key]] (schedule.ts:58): an own property of the plain
    object, or else what it inherits; [None] is [undefined]. *)
Definition get_handler (hs : gmap string IConstruct) (key : string)
  : option value :=
  match hs !! key with
  | Some f => Some (FunctionObject f)
  | None =>
      if bool_decide (key ∈ Js.Object_prototype) then Some (PrototypeMember key)
      else None
  end.

(** What [cronFunction.addPermissionToInvoke(...)] (schedule.ts:80) does
    when no class declares the method: function.ts does not. *)
Definition not_a_function : IConstruct -> IConstruct -> M unit :=
  fun _ _ => throw (TypeError "cronFunction.addPermissionToInvoke is not a function").

Section OnTick.

(** [cronFunction.addPermissionToInvoke(schedulerServiceAccount)]
    (schedule.ts:80).  function.ts does not declare the method; what the
    call does is left to the base class [cloud.Function], not under src/,
    and is a parameter here ([not_a_function] when it is not declared
    there either). *)
Context (addPermissionToInvoke : IConstruct -> IConstruct -> M unit).

(** [onTick] (schedule.ts:38-106), statement by statement.  What is stored
    under a handler id is a [Function] or an inherited member, both truthy:
    [if (cronFunction)] holds exactly when the read found something. *)
Definition onTick (this : IConstruct) (inflight : Inflight)
    (props : FunctionProps) : M value :=
  let* uniqueId := gets (fun w => Js.substring 0 8 (Node.addr (tree w) this)) in
  let* cloudSchedulerApi :=
    Construct.new this "CloudSchedulerAPI"
      (ProjectService "cloudscheduler.googleapis.com" false) in
  let* functionHandler :=
    gets (fun w => convertBetweenHandlers (collab w) inflight
                     "schedule.ontick.inflight.js" "ScheduleOnTickHandlerClient") in
  let* cached :=
    gets (fun w => get_handler (handlers (fields w this)) (_id inflight)) in
  match cached with
  | Some cronFunction => ret cronFunction
  | None =>
      let* id := makeId this "OnTick" in
      let* cronFunction := GcpFunction.new this id functionHandler props in
      let* _ :=
        modify (fun w =>
          set_schedule this
            (mkSchedule (scheduleExpression (fields w this))
                        (<[_id inflight := cronFunction]> (handlers (fields w this))))
            w) in
      let* schedulerServiceAccount :=
        Construct.new this "SchedulerServiceAccount"
          (ServiceAccount ("scheduler-" +:+ uniqueId +:+ "-sa")
                          ("Service Account for scheduler-" +:+ uniqueId)) in
      let* _ := addPermissionToInvoke cronFunction schedulerServiceAccount in
      let* cronGpcFunction := call (fun w => Function_from (collab w) cronFunction) in
      let* _ :=
        match cronGpcFunction with
        | Some view =>
            let* expr := gets (fun w => scheduleExpression (fields w this)) in
            let* email :=
              gets (fun w => attribute (collab w) schedulerServiceAccount "email") in
            let* job :=
              Construct.new this "Scheduler"
                (CloudSchedulerJob
                   {| job_name := "scheduler-" +:+ uniqueId;
                      job_description := "Trigger " +:+ fn_name view;
                      schedule := expr;
                      timeZone := "Etc/UTC";
                      attemptDeadline := "300s";
                      httpMethod := "GET";
                      uri := httpsTriggerUrl view;
                      serviceAccountEmail := email;
                      dependsOn := [cloudSchedulerApi] |}) in
            ret tt
        | None => ret tt
        end in
      let* _ :=
        modify (fun w =>
          let '(node, h) := Node.of_ this (heap w) in
          set_heap
            (Node.addConnection node
               {| Heap.source := this; Heap.target := cronFunction;
                  Heap.name := "onTick()" |} h)
            w) in
      ret (FunctionObject cronFunction)
  end.

End OnTick.

(** [envName] (schedule.ts:118-120) *)
Definition envName (t : Tree) (this : IConstruct) : string :=
  "SCHEDULER_JOB_" +:+ Js.slice (-8) (Node.addr t this).

End Schedule.

(** ** A small application to run the targets on *)

Module Demo.
Import Constructs Synth.

Definition collaborators : Collaborators :=
  {| projectId := "my-project";
     storageLocation := "US";
     bundle_path := fun _ => "/tmp/bundle";
     generateName := fun t c _ => Constructs.id t c;
     attribute := fun _ a => a;
     convertBetweenHandlers := fun h _ _ => h;
     Function_from :=
       fun _ => Returned (Some {| fn_name := "fn"; httpsTriggerUrl := "https://fn" |}) |}.

(** a base class whose [addPermissionToInvoke] returns and creates no
    construct *)
Definition addPermissionToInvoke : IConstruct -> IConstruct -> M unit :=
  fun _ _ => ret tt.

Definition world : World := init collaborators "App".

Definition handler : Inflight := {| _id := "42"; _toInflight := "handler" |}.

Definition no_props : FunctionProps := mkProps None None None.

Definition with_memory (m : Z) : FunctionProps :=
  mkProps None (Some (Js.int m)) None.

(** the world after [new Schedule(app, "Schedule", { cron: "* * * * *" })] *)
Definition world_with_schedule : World :=
  set_schedule ["Schedule"] (mkSchedule "* * * * *" ∅)
    (snd (Construct.new [] "Schedule" CloudSchedule world)).

End Demo.


(** * Further vocabulary for the properties below *)

(** ** Heaps that the attachment calls produce *)

Module Reach.
Import Constructs Heap Attach.

(** A heap obtained from the empty one by calls of [Node.of], [Display.of]
    and [addConnection]. *)
Definition reachable (h : heap) : Prop :=
  exists calls : list call, h = run_calls calls Heap.empty.

(** What is stored under each symbol is an object of the matching class:
    a node that wraps the construct it hangs on and holds the registry of
    the root, a display, or the registry on the root. *)
Definition well_attached (h : heap) (c : IConstruct) (s : symbol) (l : loc) : Prop :=
  match s with
  | NODE_SYMBOL =>
      exists n, objects h !! l = Some (NodeObject n)
                /\ _constructsNode n = c
                /\ attached h !! ([] : IConstruct, CONNECTIONS_SYMBOL)
                   = Some (_connections n)
  | DISPLAY_SYMBOL => exists d, objects h !! l = Some (DisplayObject d)
  | CONNECTIONS_SYMBOL =>
      c = [] /\ exists cs, objects h !! l = Some (ConnectionsObject cs)
  end.

Definition heap_ok (h : heap) : Prop :=
  (forall c s l, attached h !! (c, s) = Some l -> well_attached h c s l)
  /\ (forall k1 k2 l,
        attached h !! k1 = Some l -> attached h !! k2 = Some l -> k1 = k2).

(** The connections that the registry of the tree holds, in call order. *)
Definition connections (h : heap) : list AddConnectionProps :=
  match get_symbol [] CONNECTIONS_SYMBOL h with
  | Some l =>
      match objects h !! l with
      | Some (ConnectionsObject cs) => cs
      | _ => []
      end
  | None => []
  end.

End Reach.

(** ** What a constructor leaves alone *)

Module Frame.
Import Constructs Synth.

(** A computation whose final world is always related to its first. *)
Definition preserves {A} (R : World -> World -> Prop) (m : M A) : Prop :=
  forall w, R w (snd (m w)).

(** [w'] is [w] but for the constructs and resources at [c] or beneath it. *)
Definition inside (c : IConstruct) (w w' : World) : Prop :=
  collab w' = collab w
  /\ heap w' = heap w
  /\ schedules w' = schedules w
  /\ _newInstanceIds w' = _newInstanceIds w
  /\ root_id (tree w') = root_id (tree w)
  /\ forall d : IConstruct, ~ c `suffix_of` d ->
       nodes (tree w') !! d = nodes (tree w) !! d
       /\ resources w' !! d = resources w !! d.

(** What the first [onTick] needs of [addPermissionToInvoke]: called on a
    function, it removes no construct and leaves as it was everything that
    is not at or beneath that function. *)
Definition confined (addPermissionToInvoke : IConstruct -> IConstruct -> M unit)
  : Prop :=
  forall f a : IConstruct,
    preserves (inside f) (addPermissionToInvoke f a)
    /\ Construct.grows (addPermissionToInvoke f a).

(** [this] is in the tree, unlocked, with the children [kids] in this order
    and no other. *)
Definition building (t : Tree) (this : IConstruct) (kids : list string) : Prop :=
  locked t this = false
  /\ (exists n, nodes t !! this = Some n /\ _children n = kids)
  /\ (forall i, ~ In i kids -> nodes t !! (i :: this) = None)
  /\ forall i, In i kids -> is_Some (nodes t !! (i :: this)).

(** [this] is in the tree, unlocked, and there is nothing beneath it. *)
Definition childless (t : Tree) (this : IConstruct) : Prop :=
  locked t this = false
  /\ (exists n, nodes t !! this = Some n /\ _children n = [])
  /\ forall d : IConstruct, this `suffix_of` d -> d <> this -> nodes t !! d = None.

End Frame.

(** ** Names that the schedule derives *)

Module Names.


End Names.

(** * Properties *)

(** ** SHA-1 test vectors (FIPS 180-4, appendix) *)

Example sha1_abc :
  Sha1.hex_digest (Sha1.bytes_of_string "abc")
  = "a9993e364706816aba3e25717850c26c9cd0d89d".
Proof. vm_compute. reflexivity. Qed.

Example sha1_empty :
  Sha1.hex_digest [] = "da39a3ee5e6b4b0d3255bfef95601890afd80709".
Proof. vm_compute. reflexivity. Qed.

Example sha1_two_blocks :
  Sha1.hex_digest (Sha1.bytes_of_string
    "abcdbcdecdefdefgefghfghighijhijkijkljklmklmnlmnomnopnopq")
  = "84983e441c3bd26ebaae4aa1f95129e5e54670f1".
Proof. vm_compute. reflexivity. Qed.

(** ** Strings *)

Section StringFacts.

Lemma append_cons c (a b : string) : String c a +:+ b = String c (a +:+ b).
Proof. reflexivity. Qed.

Lemma length_append (a b : string) :
  String.length (a +:+ b) = (String.length a + String.length b)%nat.
Proof. induction a as [|c a IH]; simpl; [reflexivity | now rewrite IH]. Qed.

Lemma all_chars_append p (a b : string) :
  Chars.all_chars p (a +:+ b) = Chars.all_chars p a && Chars.all_chars p b.
Proof.
  induction a as [|c a IH]; simpl; [reflexivity|].
  rewrite IH. now rewrite andb_assoc.
Qed.

Lemma substring_zero_all (s : string) :
  String.substring 0 (String.length s) s = s.
Proof. induction s as [|c s IH]; simpl; [reflexivity | now rewrite IH]. Qed.

(** a string splits at every position inside it *)
Lemma substring_split (n : nat) (s : string) :
  (n <= String.length s)%nat ->
  s = String.substring 0 n s +:+ String.substring n (String.length s - n) s
  /\ String.length (String.substring 0 n s) = n
  /\ String.length (String.substring n (String.length s - n) s)
     = (String.length s - n)%nat.
Proof.
  revert s. induction n as [|n IH]; intros s Hn.
  - rewrite Nat.sub_0_r, substring_zero_all.
    destruct s; simpl; auto.
  - destruct s as [|c s]; simpl in Hn; [lia|].
    destruct (IH s ltac:(lia)) as (E & L1 & L2).
    repeat split; simpl.
    + rewrite append_cons. f_equal. exact E.
    + f_equal. exact L1.
    + exact L2.
Qed.

End StringFacts.

Section Sha1Facts.
Import Sha1.

Lemma hex_of_length n x : String.length (hex_of n x) = n.
Proof. induction n as [|n IH]; simpl; [reflexivity | now rewrite IH]. Qed.

Lemma hex_digit_lower n : Chars.is_lower_hex (hex_digit n) = true.
Proof.
  unfold hex_digit.
  assert (H : 0 <= Z.land n 0xF < 16).
  { change 0xF with (Z.ones 4). rewrite Z.land_ones by lia.
    apply Z.mod_pos_bound. lia. }
  destruct (Z.land n 0xF) as [|p|p]; [reflexivity| |lia].
  do 4 (destruct p as [p|p|]; try lia; try reflexivity).
Qed.

Lemma hex_of_lower n x : Chars.all_chars Chars.is_lower_hex (hex_of n x) = true.
Proof.
  induction n as [|n IH]; simpl; [reflexivity|].
  now rewrite hex_digit_lower, IH.
Qed.

Lemma hex_digest_length msg : String.length (hex_digest msg) = 40%nat.
Proof.
  unfold hex_digest, digest. cbn [map String.concat].
  now rewrite !length_append, !hex_of_length.
Qed.

Lemma hex_digest_lower msg :
  Chars.all_chars Chars.is_lower_hex (hex_digest msg) = true.
Proof.
  unfold hex_digest, digest. cbn [map String.concat].
  now rewrite !all_chars_append, !hex_of_lower.
Qed.

End Sha1Facts.

Lemma addr_length t c : String.length (Node.addr t c) = 42%nat.
Proof.
  unfold Node.addr, Constructs.addr, Constructs.addressOf.
  rewrite length_append, hex_digest_length. reflexivity.
Qed.

(** C2. Address format: the address of every node is 42 characters long,
    the tag "c8" followed by 40 characters from [0-9a-f] that are the
    hexadecimal SHA-1 digest of the node's path components. *)
Theorem addr_format (t : Constructs.Tree) (c : Constructs.IConstruct) :
  exists hex : string,
    Node.addr t c = "c8" +:+ hex
    /\ hex = Sha1.hex_digest (Constructs.hash_input (Constructs.segments t c))
    /\ String.length hex = 40%nat
    /\ Chars.all_chars Chars.is_lower_hex hex = true
    /\ String.length (Node.addr t c) = 42%nat.
Proof.
  eexists. split; [reflexivity|]. split; [reflexivity|].
  split; [apply hex_digest_length|]. split; [apply hex_digest_lower|].
  apply addr_length.
Qed.

Lemma hashed_segments_transparent p q :
  Transparent.differ_only_by_hidden p q ->
  Constructs.hashed_segments p = Constructs.hashed_segments q.
Proof.
  induction 1 as [|x p q _ IH|p q _ IH|p q _ IH]; simpl.
  - reflexivity.
  - now rewrite IH.
  - exact IH.
  - exact IH.
Qed.

(** C1. Structural transparency: two nodes whose root-to-node id sequences
    differ only by segments equal to "Default" have the same address. *)
Theorem addr_transparent (t1 t2 : Constructs.Tree) (c1 c2 : Constructs.IConstruct) :
  Transparent.differ_only_by_hidden
    (Constructs.segments t1 c1) (Constructs.segments t2 c2) ->
  Node.addr t1 c1 = Node.addr t2 c2.
Proof.
  intros H. unfold Node.addr, Constructs.addr, Constructs.addressOf,
    Constructs.hash_input.
  now rewrite (hashed_segments_transparent _ _ H).
Qed.

Lemma addr_transparent_witness :
  Constructs.segments (Constructs.new_tree "App") ["Topic"; "Queue"]
    = ["App"; "Queue"; "Topic"]
  /\ Constructs.segments (Constructs.new_tree "App") ["Topic"; "Default"; "Queue"]
    = ["App"; "Queue"; "Default"; "Topic"]
  /\ Node.addr (Constructs.new_tree "App") ["Topic"; "Queue"]
     = Node.addr (Constructs.new_tree "App") ["Topic"; "Default"; "Queue"].
Proof.
  split; [reflexivity|]. split; [reflexivity|].
  apply addr_transparent. simpl.
  repeat constructor.
Defined.

(** ** Lazy attachment *)

Section AttachFacts.
Import Constructs Heap Attach.

Lemma Connections_of_attached c h k l :
  attached h !! k = Some l ->
  attached (snd (Connections_of c h)) !! k = Some l.
Proof.
  intros Hk. unfold Connections_of.
  destruct (get_symbol [] CONNECTIONS_SYMBOL h) eqn:E; simpl; [exact Hk|].
  unfold get_symbol in E.
  rewrite lookup_insert_ne; [exact Hk|]. intros Heq; subst k. congruence.
Qed.

Lemma Node_of_attached c h k l :
  attached h !! k = Some l -> attached (snd (Node.of_ c h)) !! k = Some l.
Proof.
  intros Hk. unfold Node.of_.
  destruct (get_symbol c NODE_SYMBOL h) eqn:E; simpl; [exact Hk|].
  unfold get_symbol in E. unfold Node.new.
  pose proof (Connections_of_attached c h k l Hk) as Hc.
  destruct (Connections_of c h) as [conns h1]; simpl in *.
  rewrite lookup_insert_ne; [exact Hc|]. intros Heq; subst k. congruence.
Qed.

Lemma Display_of_attached c h k l :
  attached h !! k = Some l -> attached (snd (Display.of_ c h)) !! k = Some l.
Proof.
  intros Hk. unfold Display.of_.
  destruct (get_symbol c DISPLAY_SYMBOL h) eqn:E; simpl; [exact Hk|].
  unfold get_symbol in E.
  rewrite lookup_insert_ne; [exact Hk|]. intros Heq; subst k. congruence.
Qed.

Lemma addConnection_attached n p h : attached (Node.addConnection n p h) = attached h.
Proof.
  unfold Node.addConnection.
  destruct (objects h !! n) as [[nf| |]|]; try reflexivity.
  destruct (objects h !! _connections nf) as [[| |]|]; reflexivity.
Qed.

Lemma run_calls_attached cs h k l :
  attached h !! k = Some l -> attached (run_calls cs h) !! k = Some l.
Proof.
  revert h. induction cs as [|c cs IH]; intros h Hk; simpl; [exact Hk|].
  apply IH. destruct c; simpl.
  - now apply Node_of_attached.
  - now apply Display_of_attached.
  - now rewrite addConnection_attached.
Qed.

Lemma Node_of_cached c h l :
  get_symbol c NODE_SYMBOL h = Some l -> Node.of_ c h = (l, h).
Proof. intros E. unfold Node.of_. now rewrite E. Qed.

Lemma Display_of_cached c h l :
  get_symbol c DISPLAY_SYMBOL h = Some l -> Display.of_ c h = (l, h).
Proof. intros E. unfold Display.of_. now rewrite E. Qed.

Lemma Connections_of_objects c h :
  exists extra, objects (snd (Connections_of c h)) = (objects h ++ extra)%list.
Proof.
  unfold Connections_of.
  destruct (get_symbol [] CONNECTIONS_SYMBOL h); simpl.
  - exists []. now rewrite app_nil_r.
  - eexists. reflexivity.
Qed.

(** what the first [Node.of] on a construct does *)
Lemma Node_of_first c h :
  get_symbol c NODE_SYMBOL h = None ->
  let node := fst (Node.of_ c h) in
  let h1 := snd (Node.of_ c h) in
  objects h !! node = None
  /\ (exists conns, objects h1 !! node
        = Some (NodeObject (mkNodeFields None None None None c conns)))
  /\ get_symbol c NODE_SYMBOL h1 = Some node.
Proof.
  intros E. unfold Node.of_. rewrite E. unfold Node.new.
  destruct (Connections_of_objects c h) as [extra Hx].
  destruct (Connections_of c h) as [conns h0]; simpl in *.
  repeat split.
  - apply lookup_ge_None_2. rewrite Hx, length_app. lia.
  - exists conns. rewrite lookup_app_r by lia.
    now rewrite Nat.sub_diag.
  - unfold get_symbol; simpl. apply lookup_insert_eq.
Qed.

Lemma Display_of_first c h :
  get_symbol c DISPLAY_SYMBOL h = None ->
  let display := fst (Display.of_ c h) in
  let h1 := snd (Display.of_ c h) in
  objects h !! display = None
  /\ objects h1 !! display
     = Some (DisplayObject (mkDisplayFields None None None None))
  /\ get_symbol c DISPLAY_SYMBOL h1 = Some display.
Proof.
  intros E. unfold Display.of_. rewrite E. simpl.
  repeat split.
  - apply lookup_ge_None_2. lia.
  - rewrite lookup_app_r by lia. now rewrite Nat.sub_diag.
  - unfold get_symbol; simpl. apply lookup_insert_eq.
Qed.

Lemma Node_of_caches c h :
  get_symbol c NODE_SYMBOL (snd (Node.of_ c h)) = Some (fst (Node.of_ c h)).
Proof.
  destruct (get_symbol c NODE_SYMBOL h) eqn:E.
  - now rewrite (Node_of_cached _ _ _ E).
  - apply (Node_of_first c h E).
Qed.

Lemma Display_of_caches c h :
  get_symbol c DISPLAY_SYMBOL (snd (Display.of_ c h)) = Some (fst (Display.of_ c h)).
Proof.
  destruct (get_symbol c DISPLAY_SYMBOL h) eqn:E.
  - now rewrite (Display_of_cached _ _ _ E).
  - apply (Display_of_first c h E).
Qed.

End AttachFacts.

(** C5. Idempotent lazy attachment, for [Node.of] and for [Display.of]: the
    first call on a construct creates the companion object (an object that
    did not exist before) and caches it on the construct; a construct that
    already has one gets it back with nothing changed; and after the first
    call every later call, whatever [of] and [addConnection] calls come in
    between, returns the very same object and leaves the heap as it is. *)
Theorem of_idempotent (construct : Constructs.IConstruct) (h : Heap.heap) :
  let node := fst (Node.of_ construct h) in
  let hn := snd (Node.of_ construct h) in
  let display := fst (Display.of_ construct h) in
  let hd := snd (Display.of_ construct h) in
  match Heap.get_symbol construct Heap.NODE_SYMBOL h with
  | None =>
      Heap.objects h !! node = None
      /\ (exists conns, Heap.objects hn !! node
            = Some (Heap.NodeObject
                      (Heap.mkNodeFields None None None None construct conns)))
      /\ Heap.get_symbol construct Heap.NODE_SYMBOL hn = Some node
  | Some cached => node = cached /\ hn = h
  end
  /\ match Heap.get_symbol construct Heap.DISPLAY_SYMBOL h with
     | None =>
         Heap.objects h !! display = None
         /\ Heap.objects hd !! display
            = Some (Heap.DisplayObject (Heap.mkDisplayFields None None None None))
         /\ Heap.get_symbol construct Heap.DISPLAY_SYMBOL hd = Some display
     | Some cached => display = cached /\ hd = h
     end
  /\ (forall later : list Attach.call,
        Node.of_ construct (Attach.run_calls later hn)
        = (node, Attach.run_calls later hn))
  /\ (forall later : list Attach.call,
        Display.of_ construct (Attach.run_calls later hd)
        = (display, Attach.run_calls later hd)).
Proof.
  cbv zeta. repeat split.
  - destruct (Heap.get_symbol construct Heap.NODE_SYMBOL h) eqn:E.
    + now rewrite (Node_of_cached _ _ _ E).
    + apply (Node_of_first construct h E).
  - destruct (Heap.get_symbol construct Heap.DISPLAY_SYMBOL h) eqn:E.
    + now rewrite (Display_of_cached _ _ _ E).
    + apply (Display_of_first construct h E).
  - intros later. apply Node_of_cached. unfold Heap.get_symbol.
    apply run_calls_attached. apply Node_of_caches.
  - intros later. apply Display_of_cached. unfold Heap.get_symbol.
    apply run_calls_attached. apply Display_of_caches.
Qed.

(** ** Capability downcast *)

Lemma typeof_string v :
  String.eqb (Api.typeof v) "string" = true <-> exists s, v = Api.VString s.
Proof.
  split.
  - destruct v; simpl; intros H; try discriminate. eauto.
  - intros [s ->]. reflexivity.
Qed.

Lemma isAwsApi_spec api :
  Api.isAwsApi api = true
  <-> forall k, k ∈ Api.IAwsApi -> exists s, Api.get api k = Api.VString s.
Proof.
  unfold Api.isAwsApi, Api.IAwsApi. rewrite !andb_true_iff, !typeof_string.
  split.
  - intros H k Hk.
    repeat (apply elem_of_cons in Hk as [-> | Hk]; [tauto|]).
    now apply elem_of_nil in Hk.
  - intros H. repeat split; apply H; repeat constructor.
Qed.

(** C8. Capability downcast: [Api.from] is a total function on [cloud.Api]
    objects; it returns [undefined] exactly when one of the six properties
    of [IAwsApi] does not hold a string, and otherwise returns the object it
    was given, seen as an [IAwsApi]. *)
Theorem from_total (api : Api.object) :
  (Api.from api = None
   <-> exists k, k ∈ Api.IAwsApi /\ Api.typeof (Api.get api k) <> "string")
  /\ (Api.from api = Some api
      <-> forall k, k ∈ Api.IAwsApi -> exists s, Api.get api k = Api.VString s)
  /\ (Api.from api = None \/ Api.from api = Some api).
Proof.
  unfold Api.from. pose proof (isAwsApi_spec api) as S.
  destruct (Api.isAwsApi api) eqn:E.
  - repeat split; try (intros; discriminate); auto.
    + intros (k & Hk & Hn). exfalso. apply Hn.
      destruct (proj1 S eq_refl k Hk) as [s ->]. reflexivity.
    + intros _. apply S. reflexivity.
  - repeat split; auto; try (intros; discriminate).
    + intros _.
      destruct (decide (Forall (fun k => Api.typeof (Api.get api k) = "string")
                               Api.IAwsApi)) as [Hall|Hex].
      * exfalso. assert (false = true) by
          (apply S; intros k Hk;
           rewrite Forall_forall in Hall; specialize (Hall k Hk);
           apply typeof_string; rewrite Hall; reflexivity).
        discriminate.
      * apply not_Forall_Exists in Hex; [|intros k; apply _].
        apply Exists_exists in Hex. exact Hex.
    + intros H. apply S in H. discriminate.
Qed.

(** ** Environment variable of a schedule *)

Lemma slice_last8 (a : string) :
  String.length a = 42%nat ->
  exists pre suf,
    a = pre +:+ suf /\ String.length pre = 34%nat /\ String.length suf = 8%nat
    /\ Js.slice (-8) a = suf.
Proof.
  intros L.
  destruct (substring_split 34 a ltac:(lia)) as (E & L1 & L2).
  rewrite L in *.
  exists (String.substring 0 34 a), (String.substring 34 8 a).
  repeat split; try assumption.
  unfold Js.slice, Js.length. rewrite L. reflexivity.
Qed.

(** C9. The environment-variable name of a schedule is "SCHEDULER_JOB_"
    followed by exactly the last 8 characters of the node's 42-character
    address; it depends on the node through its address only. *)
Theorem envName_address_suffix (t : Constructs.Tree) (this : Constructs.IConstruct) :
  (exists pre suf,
     Node.addr t this = pre +:+ suf
     /\ String.length (Node.addr t this) = 42%nat
     /\ String.length suf = 8%nat
     /\ Schedule.envName t this = "SCHEDULER_JOB_" +:+ suf
     /\ String.length (Schedule.envName t this) = 22%nat)
  /\ (forall t' this',
        Node.addr t' this' = Node.addr t this ->
        Schedule.envName t' this' = Schedule.envName t this).
Proof.
  split.
  - destruct (slice_last8 (Node.addr t this) (addr_length t this))
      as (pre & suf & E & L1 & L2 & S).
    exists pre, suf. unfold Schedule.envName. rewrite S.
    split; [exact E|]. split; [apply addr_length|]. split; [exact L2|].
    split; [reflexivity|]. rewrite length_append, L2. reflexivity.
  - intros t' this' E. unfold Schedule.envName. now rewrite E.
Qed.

(** ** The construct tree: locking *)

Section TreeFacts.
Import Constructs TreeOps.

Lemma locked_of_scope t (s c : IConstruct) :
  _locked (node_of t s) = true -> s `suffix_of` c -> locked t c = true.
Proof.
  intros Hs [k ->]. induction k as [|i k IH]; simpl.
  - destruct s; simpl; rewrite Hs; reflexivity.
  - rewrite IH. apply orb_true_r.
Qed.

Lemma locked_iff t (c : IConstruct) :
  locked t c = true <-> exists s, s `suffix_of` c /\ _locked (node_of t s) = true.
Proof.
  split.
  - induction c as [|i c IH]; simpl; intros H.
    + rewrite orb_false_r in H. exists []. split; [reflexivity | exact H].
    + apply orb_true_iff in H as [H|H].
      * exists (i :: c). split; [reflexivity | exact H].
      * destruct (IH H) as (s & Hs & Hl). exists s. split; [|exact Hl].
        now apply suffix_cons_r.
  - intros (s & Hs & Hl). eapply locked_of_scope; eassumption.
Qed.

(** locking depends on the flags along the scope chain only *)
Lemma locked_ext t t' (c : IConstruct) :
  (forall s, s `suffix_of` c -> _locked (node_of t' s) = _locked (node_of t s)) ->
  locked t' c = locked t c.
Proof.
  induction c as [|i c IH]; intros H; simpl.
  - now rewrite (H [] ltac:(reflexivity)).
  - rewrite (H (i :: c) ltac:(reflexivity)). f_equal.
    apply IH. intros s Hs. apply H. now apply suffix_cons_r.
Qed.

Lemma addChild_returns t (s : IConstruct) i :
  locked t s = false -> nodes t !! (i :: s) = None ->
  addChild t s i = Returned (insert_child t s i).
Proof.
  intros Hl Hn. unfold addChild. rewrite Hl.
  rewrite bool_decide_eq_false_2; [reflexivity|].
  rewrite Hn. intros [? ?]. discriminate.
Qed.

Lemma addChild_inv t (s : IConstruct) i t' :
  addChild t s i = Returned t' ->
  locked t s = false /\ nodes t !! (i :: s) = None.
Proof.
  unfold addChild. destruct (locked t s); [discriminate|].
  case_bool_decide as Hd; [discriminate|]. intros _. split; [reflexivity|].
  destruct (nodes t !! (i :: s)) eqn:E; [|reflexivity].
  exfalso. apply Hd. eauto.
Qed.

Lemma addChild_locked_throws t (s : IConstruct) i :
  locked t s = true -> addChild t s i = Thrown LockedTreeMutation.
Proof. intros H. unfold addChild. now rewrite H. Qed.

Lemma lock_is_locked t node :
  is_Some (nodes t !! node) -> is_locked_node node (Node.lock t node).
Proof.
  intros [n Hn]. unfold is_locked_node, Node.lock, lock; simpl.
  rewrite lookup_alter_eq, Hn. simpl. eauto.
Qed.

Lemma run_op_is_locked node t o :
  is_locked_node node t -> is_locked_node node (run_op t o).
Proof.
  intros (n & Hn & Hl). destruct o as [s i|c|c v]; simpl.
  - destruct (addChild t s i) as [t'|e] eqn:E; [|exists n; auto].
    destruct (addChild_inv _ _ _ _ E) as [Hu Hfree].
    rewrite (addChild_returns _ _ _ Hu Hfree) in E. injection E as <-.
    unfold is_locked_node; simpl.
    rewrite lookup_insert_ne by (intros Heq; subst node; congruence).
    destruct (decide (s = node)) as [->|Hne].
    + rewrite lookup_alter_eq, Hn. simpl. eauto.
    + rewrite lookup_alter_ne by exact Hne. eauto.
  - unfold is_locked_node, Node.lock, lock; simpl.
    destruct (decide (c = node)) as [->|Hne].
    + rewrite lookup_alter_eq, Hn. simpl. eauto.
    + rewrite lookup_alter_ne by exact Hne. eauto.
  - unfold is_locked_node, Node.addValidation, addValidation; simpl.
    destruct (decide (c = node)) as [->|Hne].
    + rewrite lookup_alter_eq, Hn. simpl. eauto.
    + rewrite lookup_alter_ne by exact Hne. eauto.
Qed.

Lemma run_ops_is_locked node os t :
  is_locked_node node t -> is_locked_node node (run_ops os t).
Proof.
  revert t. induction os as [|o os IH]; intros t H; simpl; [exact H|].
  apply IH. now apply run_op_is_locked.
Qed.

Lemma is_locked_node_flag node t :
  is_locked_node node t -> _locked (node_of t node) = true.
Proof. intros (n & Hn & Hl). unfold node_of. now rewrite Hn. Qed.

End TreeFacts.

(** C7. Lock invariant: once [lock()] has been called on a node of the
    tree, every later attempt to add a child to that node or to a node
    beneath it throws LockedTreeMutation, whatever calls were made in
    between; on a node that is not locked the same call succeeds (the id
    being free); and [locked] is true exactly when the node or one of its
    enclosing scopes carries the lock. *)
Theorem lock_invariant (t : Constructs.Tree) (node : Constructs.IConstruct) :
  is_Some (Constructs.nodes t !! node) ->
  (forall (later : list TreeOps.op) (beneath : Constructs.IConstruct) (id : string),
      node `suffix_of` beneath ->
      Constructs.addChild (TreeOps.run_ops later (Node.lock t node)) beneath id
      = Thrown LockedTreeMutation)
  /\ (forall (beneath : Constructs.IConstruct) (id : string),
        Node.locked t beneath = false ->
        Constructs.nodes t !! (id :: beneath) = None ->
        exists t',
          Constructs.addChild t beneath id = Returned t'
          /\ Constructs.nodes t' !! (id :: beneath) = Some Constructs.fresh_node)
  /\ (forall (t0 : Constructs.Tree) (c : Constructs.IConstruct),
        Node.locked t0 c = true
        <-> exists s, s `suffix_of` c
                      /\ Constructs._locked (Constructs.node_of t0 s) = true).
Proof.
  intros Hnode. split; [|split].
  - intros later beneath id Hb.
    apply addChild_locked_throws.
    apply (locked_of_scope _ node); [|exact Hb].
    apply is_locked_node_flag, run_ops_is_locked, lock_is_locked, Hnode.
  - intros beneath id Hl Hfree.
    eexists. split; [apply addChild_returns; assumption|].
    simpl. apply lookup_insert_eq.
  - intros t0 c. apply locked_iff.
Qed.

Lemma lock_invariant_witness :
  Constructs.addChild (Node.lock (Constructs.new_tree "App") []) [] "Queue"
  = Thrown LockedTreeMutation
  /\ exists t', Constructs.addChild (Constructs.new_tree "App") [] "Queue"
                = Returned t'.
Proof.
  assert (Hroot : is_Some (Constructs.nodes (Constructs.new_tree "App") !! [])).
  { exists Constructs.fresh_node. reflexivity. }
  destruct (lock_invariant (Constructs.new_tree "App") [] Hroot) as (H1 & H2 & _).
  split.
  - apply (H1 [] [] "Queue"). reflexivity.
  - destruct (H2 [] "Queue") as (t' & E & _); [reflexivity | reflexivity |].
    exists t'. exact E.
Defined.

(** ** Running the constructors *)

Section RunFacts.
Import Constructs Synth.

Lemma bind_returned {A B} (m : M A) (k : A -> M B) w a w1 :
  m w = (Returned a, w1) -> bind m k w = k a w1.
Proof. intros E. unfold bind. now rewrite E. Qed.

Lemma bind_thrown {A B} (m : M A) (k : A -> M B) w e w1 :
  m w = (Thrown e, w1) -> bind m k w = (Thrown e, w1).
Proof. intros E. unfold bind. now rewrite E. Qed.

Lemma bind_gets {A B} (f : World -> A) (k : A -> M B) w :
  bind (gets f) k w = k (f w) w.
Proof. reflexivity. Qed.

Lemma bind_ret {A B} (a : A) (k : A -> M B) w : bind (ret a) k w = k a w.
Proof. reflexivity. Qed.

Lemma bind_throw {A B} e (k : A -> M B) w : bind (throw e) k w = (Thrown e, w).
Proof. reflexivity. Qed.

Lemma suffix_shorter (s c : IConstruct) i : s `suffix_of` c -> s <> i :: c.
Proof.
  intros H ->. apply suffix_length in H. simpl in H. lia.
Qed.

Lemma flag_insert_child t (s k : IConstruct) i :
  k <> i :: s ->
  _locked (node_of (insert_child t s i) k) = _locked (node_of t k).
Proof.
  intros Hk. unfold node_of, insert_child; simpl.
  rewrite lookup_insert_ne by congruence.
  destruct (decide (s = k)) as [->|Hne].
  - rewrite lookup_alter_eq. now destruct (nodes t !! k).
  - now rewrite lookup_alter_ne.
Qed.

Lemma lookup_insert_child t (s k : IConstruct) i :
  k <> i :: s -> k <> s -> nodes (insert_child t s i) !! k = nodes t !! k.
Proof.
  intros H1 H2. unfold insert_child; simpl.
  rewrite lookup_insert_ne by congruence. now rewrite lookup_alter_ne.
Qed.

Lemma insert_child_keeps t (s k : IConstruct) i :
  is_Some (nodes t !! k) -> is_Some (nodes (insert_child t s i) !! k).
Proof.
  intros [n Hn]. unfold insert_child; simpl.
  destruct (decide (i :: s = k)) as [<-|H1].
  - rewrite lookup_insert_eq. eauto.
  - rewrite lookup_insert_ne by exact H1.
    destruct (decide (s = k)) as [->|H2].
    + rewrite lookup_alter_eq, Hn. simpl. eauto.
    + rewrite lookup_alter_ne by exact H2. eauto.
Qed.

Lemma locked_insert_child t (s c : IConstruct) i :
  ~ (i :: s) `suffix_of` c ->
  locked (insert_child t s i) c = locked t c.
Proof.
  intros H. apply locked_ext. intros k Hk. apply flag_insert_child.
  intros ->. contradiction.
Qed.

Lemma ready_insert_child t (this : IConstruct) used i :
  ready t this used -> ~ In i used ->
  ready (insert_child t this i) this (i :: used).
Proof.
  intros [Hl Hfree] Hi. split.
  - rewrite locked_insert_child; [exact Hl|].
    intros H. apply suffix_length in H. simpl in H. lia.
  - intros j Hj. rewrite lookup_insert_child.
    + apply Hfree. intros Hin. apply Hj. now right.
    + intros E. injection E as ->. apply Hj. now left.
    + intros E. apply (f_equal List.length) in E. simpl in E. lia.
Qed.

Lemma ready_fresh t (s : IConstruct) i :
  locked t s = false -> unused t (i :: s) ->
  ready (insert_child t s i) (i :: s) [].
Proof.
  intros Hl Hu. split.
  - simpl. unfold node_of at 1. unfold insert_child at 1; simpl.
    rewrite lookup_insert_eq. simpl.
    rewrite locked_insert_child; [exact Hl|].
    intros H. apply suffix_length in H. simpl in H. lia.
  - intros j _. rewrite lookup_insert_child.
    + apply Hu. now apply suffix_cons_r.
    + intros E. apply (f_equal List.length) in E. simpl in E. lia.
    + intros E. apply (f_equal List.length) in E. simpl in E. lia.
Qed.

(** [new R(this, i, ...)] goes through when [this] is ready for [i] *)
Lemma Construct_new_ready w (this : IConstruct) used i r :
  ready (tree w) this used -> ~ In i used ->
  Construct.new this i r w
  = (Returned (i :: this),
     set_resource (i :: this) r (set_tree (insert_child (tree w) this i) w))
  /\ ready (insert_child (tree w) this i) this (i :: used).
Proof.
  intros R Hi. split; [|now apply ready_insert_child].
  unfold Construct.new. destruct R as [Hl Hfree].
  now rewrite (addChild_returns _ _ _ Hl (Hfree i Hi)).
Qed.

Lemma Construct_new_fresh w (s : IConstruct) i r :
  locked (tree w) s = false -> unused (tree w) (i :: s) ->
  Construct.new s i r w
  = (Returned (i :: s),
     set_resource (i :: s) r (set_tree (insert_child (tree w) s i) w))
  /\ ready (insert_child (tree w) s i) (i :: s) [].
Proof.
  intros Hl Hu. split; [|now apply ready_fresh].
  unfold Construct.new.
  rewrite (addChild_returns _ _ _ Hl); [reflexivity|].
  apply Hu. reflexivity.
Qed.

End RunFacts.

(** ** The construct tree: validation *)

Section WellFormed.
Import Constructs TreeOps.







End WellFormed.

Section WalkFacts.
Import Constructs TreeOps.
















End WalkFacts.

Section OrderFacts.
Import Constructs TreeOps.







End OrderFacts.

Section OpsFacts.
Import Constructs TreeOps.



End OpsFacts.




Section FunctionFacts.
Import Constructs Synth GcpFunction.

Ltac step_new R name :=
  let E := fresh "E" in
  let R' := fresh "R" in
  match goal with
  | |- context [bind (Construct.new ?this name ?r) ?k ?w] =>
      destruct (Construct_new_ready w this _ name r R
                  ltac:(simpl; intuition discriminate)) as [E R'];
      rewrite (bind_returned _ k _ _ _ E); clear E
  end.

(** What the constructor does on a scope that accepts the new function. *)
Lemma new_outcome w (scope : IConstruct) id inflight props :
  locked (tree w) scope = false ->
  unused (tree w) (id :: scope) ->
  let r := new scope id inflight props w in
  if memory_out_of_limits props then fst r = Thrown (Error MEMORY_ERROR)
  else if timeout_out_of_limits props then fst r = Thrown (Error TIMEOUT_ERROR)
  else
    fst r = Returned (id :: scope)
    /\ exists config,
         function (snd r) (id :: scope) = Some config
         /\ availableMemoryMb config = default (Js.int 128) (memory props)
         /\ cf_timeout config = default (Js.int 60) (seconds <$> timeout props)
         /\ environmentVariables config = default ∅ (env props).
Proof.
  intros Hl Hu r. subst r. unfold new.
  destruct (Construct_new_fresh w scope id (CloudFunction inflight props) Hl Hu)
    as [E0 R0].
  rewrite (bind_returned _ _ _ _ _ E0); clear E0.
  rewrite bind_gets.
  step_new R0 "Asset". rewrite bind_gets.
  step_new R "Id".
  step_new R1 "Function_Bucket".
  step_new R2 "Function_Object_Bucket".
  destruct (memory_out_of_limits props); [reflexivity|].
  cbv iota. rewrite bind_ret.
  destruct (timeout_out_of_limits props); [reflexivity|].
  cbv iota. rewrite bind_ret, bind_gets.
  step_new R3 "Default_Function".
  split; [reflexivity|].
  unfold function, ret. cbn [snd resources set_resource].
  rewrite lookup_insert_eq. eexists. split; [reflexivity|].
  cbn. auto.
Qed.

End FunctionFacts.

Section LimitFacts.
Import Constructs Synth GcpFunction.

(** [<] and [>] between a finite number and an integer literal *)
Lemma lt_finite q k : Js.lt (Js.Finite q) (Js.int k) = true <-> (q < inject_Z k)%Q.
Proof.
  unfold Js.lt, Js.int. rewrite Qlt_alt.
  destruct (Qcompare q (inject_Z k)); split; intros H; congruence.
Qed.

Lemma gt_finite q k : Js.gt (Js.Finite q) (Js.int k) = true <-> (inject_Z k < q)%Q.
Proof.
  unfold Js.gt, Js.lt, Js.int. rewrite Qlt_alt.
  destruct (Qcompare (inject_Z k) q); split; intros H; congruence.
Qed.

Lemma lt_finite_false q k : (inject_Z k <= q)%Q -> Js.lt (Js.Finite q) (Js.int k) = false.
Proof.
  intros H. destruct (Js.lt (Js.Finite q) (Js.int k)) eqn:E; [|reflexivity].
  apply lt_finite in E. lra.
Qed.

Lemma gt_finite_false q k : (q <= inject_Z k)%Q -> Js.gt (Js.Finite q) (Js.int k) = false.
Proof.
  intros H. destruct (Js.gt (Js.Finite q) (Js.int k)) eqn:E; [|reflexivity].
  apply gt_finite in E. lra.
Qed.

Lemma memory_out_of_limits_true props m :
  memory props = Some m -> Js.truthy m = true ->
  Js.lt m (Js.int 128) = true \/ Js.gt m (Js.int 8192) = true ->
  memory_out_of_limits props = true.
Proof.
  intros E Hz Hr. unfold memory_out_of_limits. rewrite E, Hz.
  apply orb_true_iff. exact Hr.
Qed.

Lemma memory_within_limits props :
  memory props = None
  \/ (exists q, memory props = Some (Js.Finite q)
                /\ (inject_Z 128 <= q)%Q /\ (q <= inject_Z 8192)%Q) ->
  memory_out_of_limits props = false.
Proof.
  unfold memory_out_of_limits.
  intros [E | (q & E & H1 & H2)]; rewrite E; [reflexivity|].
  rewrite (lt_finite_false q 128 H1), (gt_finite_false q 8192 H2).
  apply andb_false_r.
Qed.

Lemma timeout_out_of_limits_true props d :
  timeout props = Some d ->
  Js.lt (seconds d) (Js.int 1) = true \/ Js.gt (seconds d) (Js.int 540) = true ->
  timeout_out_of_limits props = true.
Proof.
  intros E Hr. unfold timeout_out_of_limits. rewrite E.
  apply orb_true_iff. exact Hr.
Qed.

Lemma timeout_within_limits props :
  timeout props = None
  \/ (exists d q, timeout props = Some d /\ seconds d = Js.Finite q
                  /\ (inject_Z 1 <= q)%Q /\ (q <= inject_Z 540)%Q) ->
  timeout_out_of_limits props = false.
Proof.
  unfold timeout_out_of_limits.
  intros [E | (d & q & E & Es & H1 & H2)]; rewrite E; [reflexivity|].
  rewrite Es, (lt_finite_false q 1 H1), (gt_finite_false q 540 H2). reflexivity.
Qed.

Lemma unused_new_tree root i (s : IConstruct) : unused (new_tree root) (i :: s).
Proof.
  intros d [k ->]. unfold new_tree; simpl.
  apply lookup_singleton_ne. destruct k; discriminate.
Qed.

End LimitFacts.

Section ErrorFacts.
Import Constructs Synth GcpFunction.

Lemma throws_only_weaken {A} (P Q : error -> Prop) (m : M A) :
  (forall e, P e -> Q e) -> Construct.throws_only P m -> Construct.throws_only Q m.
Proof. intros H Hm w e E. apply H. now apply (Hm w). Qed.

Lemma throws_only_ret {A} P (a : A) : Construct.throws_only P (ret a).
Proof. intros w e E. discriminate. Qed.

Lemma throws_only_gets {A} P (f : World -> A) : Construct.throws_only P (gets f).
Proof. intros w e E. discriminate. Qed.

Lemma throws_only_throw {A} (P : error -> Prop) e :
  P e -> Construct.throws_only P (@throw A e).
Proof. intros H w e' E. injection E as <-. exact H. Qed.

Lemma throws_only_bind {A B} P (m : M A) (k : A -> M B) :
  Construct.throws_only P m -> (forall a, Construct.throws_only P (k a)) ->
  Construct.throws_only P (bind m k).
Proof.
  intros Hm Hk w e. unfold bind. specialize (Hm w).
  destruct (m w) as [[a|e'] w1]; simpl in *.
  - apply Hk.
  - intros E. injection E as <-. now apply Hm.
Qed.

(** a constructor of a child throws the two tree errors only *)
Lemma throws_only_Construct_new (s : IConstruct) i r :
  Construct.throws_only
    (fun e => e = LockedTreeMutation \/ exists n, e = DuplicateChildId n)
    (Construct.new s i r).
Proof.
  intros w e. unfold Construct.new, addChild.
  destruct (locked (tree w) s); simpl; [intros E; injection E as <-; auto|].
  case_bool_decide; simpl; [|discriminate].
  intros E; injection E as <-. eauto.
Qed.

(** the errors of the constructor, and when the two of function.ts arise *)
Lemma new_errors (scope : IConstruct) id inflight props :
  Construct.throws_only
    (fun e =>
       e = LockedTreeMutation \/ (exists n, e = DuplicateChildId n)
       \/ (e = Error MEMORY_ERROR /\ memory_out_of_limits props = true)
       \/ (e = Error TIMEOUT_ERROR /\ timeout_out_of_limits props = true))
    (new scope id inflight props).
Proof.
  unfold new.
  repeat first
    [ apply throws_only_ret | apply throws_only_gets
    | apply throws_only_bind; [|intros ?]
    | eapply throws_only_weaken; [|apply throws_only_Construct_new];
      cbv beta; intros ? [?|?]; auto ].
  - destruct (memory_out_of_limits props);
      [apply throws_only_throw; auto | apply throws_only_ret].
  - destruct (timeout_out_of_limits props);
      [apply throws_only_throw; auto 6 | apply throws_only_ret].
Qed.

Lemma memory_out_of_limits_inv props :
  memory_out_of_limits props = true ->
  exists m, memory props = Some m /\ Js.truthy m = true
            /\ (Js.lt m (Js.int 128) = true \/ Js.gt m (Js.int 8192) = true).
Proof.
  unfold memory_out_of_limits. destruct (memory props) as [m|]; [|discriminate].
  intros H. apply andb_true_iff in H as [Hz Hr].
  exists m. split; [reflexivity|]. split; [exact Hz|].
  now apply orb_true_iff in Hr.
Qed.

Lemma timeout_out_of_limits_inv props :
  timeout_out_of_limits props = true ->
  exists d, timeout props = Some d
            /\ (Js.lt (seconds d) (Js.int 1) = true
                \/ Js.gt (seconds d) (Js.int 540) = true).
Proof.
  unfold timeout_out_of_limits. destruct (timeout props) as [d|]; [|discriminate].
  intros Hr. exists d. split; [reflexivity|]. now apply orb_true_iff in Hr.
Qed.

Lemma memory_error_only_when_out (scope : IConstruct) id inflight props w :
  fst (new scope id inflight props w) = Thrown (Error MEMORY_ERROR) ->
  memory_out_of_limits props = true.
Proof.
  intros E. destruct (new_errors scope id inflight props w _ E)
    as [H | [[n H] | [[_ H] | [H _]]]]; try discriminate. exact H.
Qed.

Lemma timeout_error_only_when_out (scope : IConstruct) id inflight props w :
  fst (new scope id inflight props w) = Thrown (Error TIMEOUT_ERROR) ->
  timeout_out_of_limits props = true.
Proof.
  intros E. destruct (new_errors scope id inflight props w _ E)
    as [H | [[n H] | [[H _] | [_ H]]]]; try discriminate. exact H.
Qed.

Lemma returns_only_bind_l {A B} P (m : M A) (k : A -> M B) :
  Construct.returns_only P m -> Construct.returns_only P (bind m k).
Proof.
  intros Hm w b. unfold bind. specialize (Hm w).
  destruct (m w) as [[a|e] w1]; simpl in *; [|discriminate].
  intros _. now apply (Hm a).
Qed.

Lemma returns_only_bind_r {A B} P (m : M A) (k : A -> M B) :
  (forall a, Construct.returns_only P (k a)) -> Construct.returns_only P (bind m k).
Proof.
  intros Hk w b. unfold bind.
  destruct (m w) as [[a|e] w1]; simpl; [apply Hk | discriminate].
Qed.

(** on any scope, the constructor returns only with props within the limits *)
Lemma new_returns_within (scope : IConstruct) id inflight props w this :
  fst (new scope id inflight props w) = Returned this ->
  memory_out_of_limits props = false /\ timeout_out_of_limits props = false.
Proof.
  revert w this.
  change (Construct.returns_only (memory_out_of_limits props = false
                        /\ timeout_out_of_limits props = false)
            (new scope id inflight props)).
  unfold new.
  do 7 (apply returns_only_bind_r; intros ?).
  destruct (memory_out_of_limits props).
  { apply returns_only_bind_l. intros w x E. cbn in E. discriminate E. }
  apply returns_only_bind_r; intros _.
  destruct (timeout_out_of_limits props).
  { apply returns_only_bind_l. intros w x E. cbn in E. discriminate E. }
  intros w x _. split; reflexivity.
Qed.

Lemma new_throws_when_out (scope : IConstruct) id inflight props w :
  memory_out_of_limits props || timeout_out_of_limits props = true ->
  exists e, fst (new scope id inflight props w) = Thrown e.
Proof.
  intros Hout.
  destruct (fst (new scope id inflight props w)) as [this|e] eqn:E; [|eauto].
  apply new_returns_within in E as [Hm Ht]. rewrite Hm, Ht in Hout. discriminate.
Qed.

End ErrorFacts.

(** C3, as the code has it. The constructor of the GCP Function raises a
    construction-time error whenever [props.memory] is a number other than
    zero that is below 128 or above 8192, or [props.timeout] is below 1 or
    above 540 seconds (NaN is neither below nor above a bound).  On a scope
    that accepts the new construct the error is the memory message in the
    first case and otherwise the timeout message.  The memory message is
    raised only for a memory below 128 or above 8192 and the timeout message
    only for a timeout below 1 or above 540 seconds, so values in range
    raise neither, and on a scope that accepts the new construct the
    function is returned.  Each message is a fixed text, the same whatever
    the offending value, that names both bounds of the range; with memory
    9000 it does not contain "9000".  For a finite number, [Js.lt] and
    [Js.gt] are the order of the rationals; NaN is neither below nor above
    any number. *)
Theorem Function_limits (w : Synth.World) (scope : Constructs.IConstruct)
    (id : string) (inflight : Synth.Inflight) (props : Synth.FunctionProps) :
  let result := fst (GcpFunction.new scope id inflight props w) in
  (result = Thrown (Error GcpFunction.MEMORY_ERROR) ->
     exists m, Synth.memory props = Some m
               /\ (Js.lt m (Js.int 128) = true \/ Js.gt m (Js.int 8192) = true))
  /\ (result = Thrown (Error GcpFunction.TIMEOUT_ERROR) ->
      exists d, Synth.timeout props = Some d
                /\ (Js.lt (Synth.seconds d) (Js.int 1) = true
                    \/ Js.gt (Synth.seconds d) (Js.int 540) = true))
  /\ (forall m, Synth.memory props = Some m -> Js.truthy m = true ->
        Js.lt m (Js.int 128) = true \/ Js.gt m (Js.int 8192) = true ->
        exists e, result = Thrown e)
  /\ (forall d, Synth.timeout props = Some d ->
        Js.lt (Synth.seconds d) (Js.int 1) = true
        \/ Js.gt (Synth.seconds d) (Js.int 540) = true ->
        exists e, result = Thrown e)
  /\ (Node.locked (Synth.tree w) scope = false ->
      Constructs.unused (Synth.tree w) (id :: scope) ->
      (forall m, Synth.memory props = Some m -> Js.truthy m = true ->
         Js.lt m (Js.int 128) = true \/ Js.gt m (Js.int 8192) = true ->
         result = Thrown (Error GcpFunction.MEMORY_ERROR))
      /\ (forall d, Synth.timeout props = Some d ->
            Js.lt (Synth.seconds d) (Js.int 1) = true
            \/ Js.gt (Synth.seconds d) (Js.int 540) = true ->
            (result = Thrown (Error GcpFunction.MEMORY_ERROR)
             \/ result = Thrown (Error GcpFunction.TIMEOUT_ERROR))
            /\ (GcpFunction.memory_out_of_limits props = false ->
                result = Thrown (Error GcpFunction.TIMEOUT_ERROR)))
      /\ (Synth.memory props = None
          \/ (exists q, Synth.memory props = Some (Js.Finite q)
                        /\ (inject_Z 128 <= q)%Q /\ (q <= inject_Z 8192)%Q) ->
          Synth.timeout props = None
          \/ (exists d q, Synth.timeout props = Some d
                          /\ Synth.seconds d = Js.Finite q
                          /\ (inject_Z 1 <= q)%Q /\ (q <= inject_Z 540)%Q) ->
          result = Returned (id :: scope)))
  /\ (Synth.memory props = None
      \/ (exists q, Synth.memory props = Some (Js.Finite q)
                    /\ (inject_Z 128 <= q)%Q /\ (q <= inject_Z 8192)%Q) ->
      result <> Thrown (Error GcpFunction.MEMORY_ERROR))
  /\ (Synth.timeout props = None
      \/ (exists d q, Synth.timeout props = Some d
                      /\ Synth.seconds d = Js.Finite q
                      /\ (inject_Z 1 <= q)%Q /\ (q <= inject_Z 540)%Q) ->
      result <> Thrown (Error GcpFunction.TIMEOUT_ERROR))
  /\ GcpFunction.MEMORY_ERROR
     = "Memory must be between 128 and 8192 MB for GCP Cloud Functions"
  /\ GcpFunction.TIMEOUT_ERROR
     = "Timeout must be between 1 and 540 seconds for GCP Cloud Functions"
  /\ Js.includes "between 128 and 8192 MB" GcpFunction.MEMORY_ERROR = true
  /\ Js.includes "between 1 and 540 seconds" GcpFunction.TIMEOUT_ERROR = true
  /\ Js.includes "9000" GcpFunction.MEMORY_ERROR = false
  /\ (forall q k, Js.lt (Js.Finite q) (Js.int k) = true <-> (q < inject_Z k)%Q)
  /\ (forall q k, Js.gt (Js.Finite q) (Js.int k) = true <-> (inject_Z k < q)%Q)
  /\ (forall x, Js.lt Js.NaN x = false /\ Js.gt Js.NaN x = false).
Proof.
  intros result.
  assert (Hmem : forall m, Synth.memory props = Some m -> Js.truthy m = true ->
            Js.lt m (Js.int 128) = true \/ Js.gt m (Js.int 8192) = true ->
            GcpFunction.memory_out_of_limits props = true)
    by (intros m; apply memory_out_of_limits_true).
  assert (Hto : forall d, Synth.timeout props = Some d ->
            Js.lt (Synth.seconds d) (Js.int 1) = true
            \/ Js.gt (Synth.seconds d) (Js.int 540) = true ->
            GcpFunction.timeout_out_of_limits props = true)
    by (intros d; apply timeout_out_of_limits_true).
  refine (conj _ (conj _ (conj _ (conj _ (conj _ (conj _ (conj _ _))))))).
  - intros E. apply memory_error_only_when_out, memory_out_of_limits_inv in E.
    destruct E as (m & E & _ & Hr). eauto.
  - intros E. now apply timeout_error_only_when_out, timeout_out_of_limits_inv in E.
  - intros m E Hz Hr. apply new_throws_when_out.
    now rewrite (Hmem m E Hz Hr).
  - intros d E Hr. apply new_throws_when_out.
    rewrite (Hto d E Hr). apply orb_true_r.
  - intros Hl Hu.
    pose proof (new_outcome w scope id inflight props Hl Hu) as H.
    cbv zeta in H. fold result in H.
    split; [|split].
    + intros m E Hz Hr. now rewrite (Hmem m E Hz Hr) in H.
    + intros d E Hr. rewrite (Hto d E Hr) in H.
      destruct (GcpFunction.memory_out_of_limits props); split; auto.
      intros; discriminate.
    + intros Hm Ht.
      rewrite (memory_within_limits props Hm), (timeout_within_limits props Ht) in H.
      apply H.
  - intros Hm E. apply memory_error_only_when_out in E.
    rewrite (memory_within_limits props Hm) in E. discriminate.
  - intros Ht E. apply timeout_error_only_when_out in E.
    rewrite (timeout_within_limits props Ht) in E. discriminate.
  - repeat (split; [reflexivity|]).
    split; [apply lt_finite|]. split; [apply gt_finite|].
    intros x. split; [reflexivity | destruct x; reflexivity].
Qed.

Lemma Function_limits_witness :
  fst (GcpFunction.new [] "f" Demo.handler (Demo.with_memory 9000) Demo.world)
  = Thrown (Error GcpFunction.MEMORY_ERROR)
  /\ fst (GcpFunction.new [] "f" Demo.handler (Demo.with_memory 256) Demo.world)
     = Returned ["f"]
  /\ (exists m, Synth.memory (Demo.with_memory 9000) = Some m
                /\ (Js.lt m (Js.int 128) = true \/ Js.gt m (Js.int 8192) = true))
  /\ fst (GcpFunction.new [] "f" Demo.handler
            (Synth.mkProps None (Some (Js.Infinity true)) None) Demo.world)
     = Thrown (Error GcpFunction.MEMORY_ERROR).
Proof.
  assert (Hacc : forall props,
            let result := fst (GcpFunction.new [] "f" Demo.handler props Demo.world) in
            (forall m, Synth.memory props = Some m -> Js.truthy m = true ->
               Js.lt m (Js.int 128) = true \/ Js.gt m (Js.int 8192) = true ->
               result = Thrown (Error GcpFunction.MEMORY_ERROR))
            /\ (Synth.memory props = None
                \/ (exists q, Synth.memory props = Some (Js.Finite q)
                              /\ (inject_Z 128 <= q)%Q /\ (q <= inject_Z 8192)%Q) ->
                Synth.timeout props = None
                \/ (exists d q, Synth.timeout props = Some d
                                /\ Synth.seconds d = Js.Finite q
                                /\ (inject_Z 1 <= q)%Q /\ (q <= inject_Z 540)%Q) ->
                result = Returned ["f"])).
  { intros props result.
    destruct (proj1 (proj2 (proj2 (proj2 (proj2
                (Function_limits Demo.world [] "f" Demo.handler props)))))
                eq_refl (unused_new_tree "App" "f" [])) as (H1 & _ & H3).
    split; [exact H1 | exact H3]. }
  assert (H9000 :
    fst (GcpFunction.new [] "f" Demo.handler (Demo.with_memory 9000) Demo.world)
    = Thrown (Error GcpFunction.MEMORY_ERROR)).
  { apply (proj1 (Hacc (Demo.with_memory 9000)) (Js.int 9000));
      [reflexivity | reflexivity | right; reflexivity]. }
  split; [exact H9000|]. split; [|split].
  - apply (proj2 (Hacc (Demo.with_memory 256))).
    + right. exists (inject_Z 256). split; [reflexivity|].
      split; apply Qle_bool_iff; reflexivity.
    + left. reflexivity.
  - exact (proj1 (Function_limits Demo.world [] "f" Demo.handler
                    (Demo.with_memory 9000)) H9000).
  - apply (proj1 (Hacc (Synth.mkProps None (Some (Js.Infinity true)) None))
             (Js.Infinity true));
      [reflexivity | reflexivity | left; reflexivity].
Defined.

(** C3, as the specification words it, fails twice: with 9000 MB the
    constructor throws, but the message does not name the offending value;
    and with 0 MB, which is outside [128, 8192], it does not throw. *)
Lemma Function_limits_not_as_stated :
  fst (GcpFunction.new [] "f" Demo.handler (Demo.with_memory 9000) Demo.world)
  = Thrown (Error "Memory must be between 128 and 8192 MB for GCP Cloud Functions")
  /\ Js.includes "9000"
       "Memory must be between 128 and 8192 MB for GCP Cloud Functions" = false
  /\ ~ (128 <= 0 <= 8192)
  /\ fst (GcpFunction.new [] "f" Demo.handler (Demo.with_memory 0) Demo.world)
     = Returned ["f"].
Proof.
  split; [vm_compute; reflexivity|]. split; [vm_compute; reflexivity|].
  split; [lia|]. vm_compute. reflexivity.
Qed.

(** C10. With [props.memory] equal to 0, a value outside [128, 8192], the
    memory test does not fire: the constructor never throws the memory
    error, and on a scope that accepts the new construct (the timeout being
    within its limits) it returns and the synthesized function has
    [availableMemoryMb] 0.  The default of 128 is what an absent
    [props.memory] gives; a given amount is passed on as it is.  The memory
    test does not fire for zero however the rational is written. *)
Theorem Function_memory_zero (w : Synth.World) (scope : Constructs.IConstruct)
    (id : string) (inflight : Synth.Inflight) (props : Synth.FunctionProps) :
  let r := GcpFunction.new scope id inflight props w in
  (Synth.memory props = Some (Js.int 0) ->
     ~ (128 <= 0 <= 8192)
     /\ GcpFunction.memory_out_of_limits props = false
     /\ fst r <> Thrown (Error GcpFunction.MEMORY_ERROR))
  /\ (Node.locked (Synth.tree w) scope = false ->
      Constructs.unused (Synth.tree w) (id :: scope) ->
      GcpFunction.timeout_out_of_limits props = false ->
      (Synth.memory props = Some (Js.int 0) ->
         fst r = Returned (id :: scope)
         /\ exists config,
              GcpFunction.function (snd r) (id :: scope) = Some config
              /\ Synth.availableMemoryMb config = Js.int 0)
      /\ (Synth.memory props = None ->
          fst r = Returned (id :: scope)
          /\ exists config,
               GcpFunction.function (snd r) (id :: scope) = Some config
               /\ Synth.availableMemoryMb config = Js.int 128)
      /\ (forall m, Synth.memory props = Some m ->
            GcpFunction.memory_out_of_limits props = false ->
            fst r = Returned (id :: scope)
            /\ exists config,
                 GcpFunction.function (snd r) (id :: scope) = Some config
                 /\ Synth.availableMemoryMb config = m))
  /\ (forall q, (q == 0)%Q -> Synth.memory props = Some (Js.Finite q) ->
        GcpFunction.memory_out_of_limits props = false
        /\ fst r <> Thrown (Error GcpFunction.MEMORY_ERROR)).
Proof.
  intros r. split; [|split].
  3: { intros q Hq E.
       assert (Hm : GcpFunction.memory_out_of_limits props = false).
       { unfold GcpFunction.memory_out_of_limits, Js.truthy. rewrite E.
         now rewrite (proj2 (Qeq_bool_iff q 0) Hq). }
       split; [exact Hm|].
       intros Hr. apply memory_error_only_when_out in Hr. congruence. }
  - intros E.
    assert (Hm : GcpFunction.memory_out_of_limits props = false)
      by (unfold GcpFunction.memory_out_of_limits; rewrite E; reflexivity).
    split; [lia|]. split; [exact Hm|].
    intros Hr. apply memory_error_only_when_out in Hr. congruence.
  - intros Hl Hu Ht.
    pose proof (new_outcome w scope id inflight props Hl Hu) as H.
    cbv zeta in H. fold r in H. rewrite Ht in H.
    assert (Hgen : forall m, Synth.memory props = Some m ->
              GcpFunction.memory_out_of_limits props = false ->
              fst r = Returned (id :: scope)
              /\ exists config,
                   GcpFunction.function (snd r) (id :: scope) = Some config
                   /\ Synth.availableMemoryMb config = m).
    { intros m E Hm. rewrite Hm in H. destruct H as (Hr & config & Hf & Ha & _).
      split; [exact Hr|]. exists config. split; [exact Hf|].
      rewrite Ha, E. reflexivity. }
    split; [|split].
    + intros E. apply Hgen; [exact E|].
      unfold GcpFunction.memory_out_of_limits; rewrite E; reflexivity.
    + intros E.
      assert (Hm : GcpFunction.memory_out_of_limits props = false)
        by (unfold GcpFunction.memory_out_of_limits; rewrite E; reflexivity).
      rewrite Hm in H. destruct H as (Hr & config & Hf & Ha & _).
      split; [exact Hr|]. exists config. split; [exact Hf|].
      rewrite Ha, E. reflexivity.
    + exact Hgen.
Qed.

Lemma Function_memory_zero_witness :
  fst (GcpFunction.new [] "f" Demo.handler (Demo.with_memory 0) Demo.world)
  <> Thrown (Error GcpFunction.MEMORY_ERROR)
  /\ fst (GcpFunction.new [] "f" Demo.handler (Demo.with_memory 0) Demo.world)
     = Returned ["f"]
  /\ exists config,
       GcpFunction.function
         (snd (GcpFunction.new [] "f" Demo.handler (Demo.with_memory 0)
                 Demo.world)) ["f"] = Some config
       /\ Synth.availableMemoryMb config = Js.int 0.
Proof.
  pose proof (Function_memory_zero Demo.world [] "f" Demo.handler
                (Demo.with_memory 0)) as (H1 & H2 & _).
  split.
  - apply H1. reflexivity.
  - refine (proj1 (H2 _ _ _) _).
    + reflexivity.
    + apply unused_new_tree.
    + reflexivity.
    + reflexivity.
Defined.

(** ** The schedule *)

Section ScheduleFacts.
Import Constructs Synth.

Lemma grows_ret {A} (a : A) : Construct.grows (ret a).
Proof. intros w c H. exact H. Qed.

Lemma grows_throw {A} e : Construct.grows (@throw A e).
Proof. intros w c H. exact H. Qed.

Lemma grows_gets {A} (f : World -> A) : Construct.grows (gets f).
Proof. intros w c H. exact H. Qed.

Lemma grows_call {A} (f : World -> outcome A) : Construct.grows (call f).
Proof. intros w c H. exact H. Qed.

Lemma grows_modify f :
  (forall w, tree (f w) = tree w) -> Construct.grows (modify f).
Proof. intros Hf w c H. unfold Construct.has, modify; simpl. now rewrite Hf. Qed.

Lemma grows_bind {A B} (m : M A) (k : A -> M B) :
  Construct.grows m -> (forall a, Construct.grows (k a)) ->
  Construct.grows (bind m k).
Proof.
  intros Hm Hk w c H. unfold bind.
  specialize (Hm w c H).
  destruct (m w) as [[a|e] w1]; simpl in *; [|exact Hm].
  now apply Hk.
Qed.

Lemma grows_Construct_new (s : IConstruct) i r : Construct.grows (Construct.new s i r).
Proof.
  intros w c H. unfold Construct.new.
  destruct (addChild (tree w) s i) as [t|e] eqn:E; simpl; [|exact H].
  unfold addChild in E. destruct (locked (tree w) s); [discriminate|].
  case_bool_decide; [discriminate|]. injection E as <-.
  unfold Construct.has; simpl. now apply insert_child_keeps.
Qed.

Lemma grows_makeId (s : IConstruct) prefix : Construct.grows (Schedule.makeId s prefix).
Proof. intros w c H. exact H. Qed.

Lemma grows_if {A} (b : bool) (m1 m2 : M A) :
  Construct.grows m1 -> Construct.grows m2 -> Construct.grows (if b then m1 else m2).
Proof. now destruct b. Qed.

Ltac grows :=
  repeat first
    [ apply grows_ret | apply grows_throw | apply grows_gets | apply grows_call
    | apply grows_Construct_new | apply grows_makeId
    | apply grows_if
    | apply grows_bind; [|intros ?] ].

Lemma grows_Function_new (s : IConstruct) i inflight props :
  Construct.grows (GcpFunction.new s i inflight props).
Proof. unfold GcpFunction.new. grows. Qed.

Lemma grows_apply {A} (m : M A) w c :
  Construct.has w c -> Construct.grows m -> Construct.has (snd (m w)) c.
Proof. intros H Hm. now apply Hm. Qed.

Lemma grows_not_a_function f a : Construct.grows (Schedule.not_a_function f a).
Proof. apply grows_throw. Qed.

Variable addPermissionToInvoke : IConstruct -> IConstruct -> M unit.
Hypothesis addPermissionToInvoke_grows :
  forall f a, Construct.grows (addPermissionToInvoke f a).

(** a call whose first statement, [new ProjectService(this,
    "CloudSchedulerAPI", ...)], returns leaves that child in the tree,
    whatever happens afterwards *)
Lemma onTick_leaves_api (this : IConstruct) inflight props w api w1 :
  Construct.new this "CloudSchedulerAPI"
    (ProjectService "cloudscheduler.googleapis.com" false) w = (Returned api, w1) ->
  Construct.has (snd (Schedule.onTick addPermissionToInvoke this inflight props w))
                ("CloudSchedulerAPI" :: this).
Proof.
  intros E. unfold Schedule.onTick. rewrite !bind_gets.
  rewrite !(bind_returned _ _ _ _ _ E).
  assert (H1 : Construct.has w1 ("CloudSchedulerAPI" :: this)).
  { unfold Construct.new in E.
    destruct (addChild (tree w) this "CloudSchedulerAPI") as [t|e] eqn:Ea;
      [|discriminate].
    injection E as _ <-. unfold addChild in Ea.
    destruct (locked (tree w) this); [discriminate|].
    case_bool_decide; [discriminate|]. injection Ea as <-.
    unfold Construct.has, insert_child; simpl. rewrite lookup_insert_eq. eauto. }
  apply (grows_apply _ _ _ H1).
  apply grows_bind; [apply grows_gets|intros functionHandler].
  apply grows_bind; [apply grows_gets|intros [cached|]]; [apply grows_ret|].
  apply grows_bind; [apply grows_makeId|intros id].
  apply grows_bind; [apply grows_Function_new|intros cronFunction].
  apply grows_bind; [apply grows_modify; reflexivity|intros _].
  apply grows_bind; [apply grows_Construct_new|intros sa].
  apply grows_bind; [apply addPermissionToInvoke_grows|intros _].
  apply grows_bind; [apply grows_call|intros [view|]].
  - apply grows_bind; [grows|intros _].
    apply grows_bind; [|intros _; apply grows_ret].
    apply grows_modify. intros w0. now destruct (Node.of_ this (heap w0)).
  - apply grows_bind; [grows|intros _].
    apply grows_bind; [|intros _; apply grows_ret].
    apply grows_modify. intros w0. now destruct (Node.of_ this (heap w0)).
Qed.

(** a call that returns has created the child "CloudSchedulerAPI" *)
Lemma onTick_creates_api (this : IConstruct) inflight props w f :
  fst (Schedule.onTick addPermissionToInvoke this inflight props w) = Returned f ->
  Construct.has (snd (Schedule.onTick addPermissionToInvoke this inflight props w))
                ("CloudSchedulerAPI" :: this).
Proof.
  destruct (Construct.new this "CloudSchedulerAPI"
              (ProjectService "cloudscheduler.googleapis.com" false) w)
    as [[api|e] w1] eqn:E.
  - intros _. now apply (onTick_leaves_api _ _ _ _ api w1).
  - unfold Schedule.onTick. rewrite !bind_gets.
    rewrite !(bind_thrown _ _ _ _ _ E). discriminate.
Qed.

(** once that child exists, [onTick] throws before it looks any handler up *)
Lemma onTick_throws_on_api (this : IConstruct) inflight props w :
  Construct.has w ("CloudSchedulerAPI" :: this) ->
  Schedule.onTick addPermissionToInvoke this inflight props w
  = (Thrown (if locked (tree w) this then LockedTreeMutation
             else DuplicateChildId "CloudSchedulerAPI"), w).
Proof.
  intros H. unfold Schedule.onTick. rewrite bind_gets.
  apply bind_thrown. unfold Construct.new, addChild.
  destruct (locked (tree w) this); [reflexivity|].
  now rewrite bool_decide_eq_true_2.
Qed.

End ScheduleFacts.

(** A second [onTick] on the same schedule never reaches the handler table:
    whatever handler it is given, it throws and changes nothing.  This holds
    after a first call that returned, and after one that threw past its
    first statement, whatever [addPermissionToInvoke] is, as long as it
    removes no construct. *)
Lemma onTick_second_call_throws
    (addPermissionToInvoke : Constructs.IConstruct -> Constructs.IConstruct
                             -> Synth.M unit)
    (this : Constructs.IConstruct)
    (inflight : Synth.Inflight) (props : Synth.FunctionProps) (w : Synth.World) :
  (forall f a, Construct.grows (addPermissionToInvoke f a)) ->
  let first := Schedule.onTick addPermissionToInvoke this inflight props w in
  (exists f, fst first = Returned f)
  \/ (exists api, fst (Construct.new this "CloudSchedulerAPI"
                         (Synth.ProjectService "cloudscheduler.googleapis.com" false)
                         w) = Returned api) ->
  forall inflight' props',
    exists e,
      Schedule.onTick addPermissionToInvoke this inflight' props' (snd first)
      = (Thrown e, snd first)
      /\ (e = DuplicateChildId "CloudSchedulerAPI" \/ e = LockedTreeMutation).
Proof.
  intros Hgrows first Hfirst inflight' props'.
  assert (Hapi : Construct.has (snd first) ("CloudSchedulerAPI" :: this)).
  { destruct Hfirst as [[f Hf] | [api Ha]].
    - now apply (onTick_creates_api _ Hgrows this inflight props w f).
    - destruct (Construct.new this "CloudSchedulerAPI"
                  (Synth.ProjectService "cloudscheduler.googleapis.com" false) w)
        as [o w1] eqn:E.
      simpl in Ha. subst o.
      now apply (onTick_leaves_api _ Hgrows this inflight props w api w1). }
  rewrite (onTick_throws_on_api _ this inflight' props' (snd first) Hapi).
  eexists. split; [reflexivity|].
  destruct (Constructs.locked (Synth.tree (snd first)) this); auto.
Qed.

(** C4 on the code: on the schedule of the example application, the first
    [onTick] with a handler creates the function OnTick0 and records it
    under the handler's id; it returns that function when
    [addPermissionToInvoke] returns, and throws a TypeError at schedule.ts:80
    when no class declares that method.  Either way the second [onTick] with
    the same handler does not return that function: it throws
    DuplicateChildId and changes nothing, because the child
    "CloudSchedulerAPI" is created again before the handler table is read. *)
Theorem onTick_same_handler_twice :
  let first := Schedule.onTick Demo.addPermissionToInvoke ["Schedule"] Demo.handler
                 Demo.no_props Demo.world_with_schedule in
  let first' := Schedule.onTick Schedule.not_a_function ["Schedule"] Demo.handler
                  Demo.no_props Demo.world_with_schedule in
  fst first = Returned (Schedule.FunctionObject ["OnTick0"; "Schedule"])
  /\ Synth.handlers (Schedule.fields (snd first) ["Schedule"]) !! "42"
     = Some ["OnTick0"; "Schedule"]
  /\ Schedule.onTick Demo.addPermissionToInvoke ["Schedule"] Demo.handler
       Demo.no_props (snd first)
     = (Thrown (DuplicateChildId "CloudSchedulerAPI"), snd first)
  /\ fst first'
     = Thrown (TypeError "cronFunction.addPermissionToInvoke is not a function")
  /\ Synth.handlers (Schedule.fields (snd first') ["Schedule"]) !! "42"
     = Some ["OnTick0"; "Schedule"]
  /\ Schedule.onTick Schedule.not_a_function ["Schedule"] Demo.handler
       Demo.no_props (snd first')
     = (Thrown (DuplicateChildId "CloudSchedulerAPI"), snd first').
Proof.
  cbv zeta.
  split; [vm_compute; reflexivity|]. split; [vm_compute; reflexivity|].
  split; [|split; [vm_compute; reflexivity|split; [vm_compute; reflexivity|]]].
  - rewrite onTick_throws_on_api.
    + f_equal; try (vm_compute; reflexivity).
    + eapply onTick_creates_api; [intros f a; apply grows_ret|].
      vm_compute. reflexivity.
  - rewrite onTick_throws_on_api.
    + f_equal; try (vm_compute; reflexivity).
    + eapply (onTick_leaves_api _ grows_not_a_function).
      vm_compute. reflexivity.
Qed.

(** * Further properties of the code *)

(** ** Attached objects *)

Section ReachFacts.
Import Constructs Heap Attach Reach.

Lemma well_attached_lt h c s l :
  well_attached h c s l -> (l < List.length (objects h))%nat.
Proof.
  destruct s; simpl.
  - intros (n & H & _). eapply lookup_lt_Some, H.
  - intros (d & H). eapply lookup_lt_Some, H.
  - intros (_ & cs & H). eapply lookup_lt_Some, H.
Qed.

Lemma heap_ok_empty : heap_ok Heap.empty.
Proof.
  split.
  - intros c s l H. unfold Heap.empty in H; simpl in H.
    rewrite lookup_empty in H. discriminate.
  - intros k1 k2 l H. unfold Heap.empty in H; simpl in H.
    rewrite lookup_empty in H. discriminate.
Qed.

(** attaching a newly allocated object of the right class keeps the heap in
    order *)
Lemma heap_ok_attach_new h (c : IConstruct) s o :
  heap_ok h ->
  attached h !! (c, s) = None ->
  (forall h', objects h' !! List.length (objects h) = Some o ->
              (forall k, k <> (c, s) -> attached h' !! k = attached h !! k) ->
              well_attached h' c s (List.length (objects h))) ->
  heap_ok (set_symbol c s (List.length (objects h)) (snd (alloc o h))).
Proof.
  intros [Hwell Hinj] Hfree Hnew.
  set (h' := set_symbol c s (List.length (objects h)) (snd (alloc o h))).
  assert (Hobj : objects h' !! List.length (objects h) = Some o).
  { unfold h'; simpl. rewrite lookup_app_r by lia. now rewrite Nat.sub_diag. }
  assert (Hold : forall k, k <> (c, s) -> attached h' !! k = attached h !! k).
  { intros k Hk. unfold h'; simpl. now rewrite lookup_insert_ne. }
  assert (Hkeep : forall l x, objects h !! l = Some x -> objects h' !! l = Some x).
  { intros l x Hl. unfold h'; simpl. rewrite lookup_app_l; [exact Hl|].
    eapply lookup_lt_Some, Hl. }
  split.
  - intros c' s' l Hl.
    destruct (decide ((c', s') = (c, s))) as [E|Hne].
    + injection E as -> ->. unfold h' in Hl; simpl in Hl.
      rewrite lookup_insert_eq in Hl. injection Hl as <-.
      now apply Hnew.
    + rewrite (Hold _ Hne) in Hl. specialize (Hwell _ _ _ Hl).
      destruct s'; simpl in *.
      * destruct Hwell as (n & Ho & Hc & Hr). exists n.
        split; [now apply Hkeep|]. split; [exact Hc|].
        rewrite Hold; [exact Hr|]. intros E. rewrite E in Hr. congruence.
      * destruct Hwell as (d & Ho). exists d. now apply Hkeep.
      * destruct Hwell as (-> & cs & Ho). split; [reflexivity|].
        exists cs. now apply Hkeep.
  - intros k1 k2 l H1 H2.
    destruct (decide (k1 = (c, s))) as [E1|N1];
      destruct (decide (k2 = (c, s))) as [E2|N2].
    + congruence.
    + subst k1. unfold h' in H1; simpl in H1.
      rewrite lookup_insert_eq in H1. injection H1 as <-.
      rewrite (Hold _ N2) in H2. destruct k2 as [c2 s2].
      apply Hwell, well_attached_lt in H2. lia.
    + subst k2. unfold h' in H2; simpl in H2.
      rewrite lookup_insert_eq in H2. injection H2 as <-.
      rewrite (Hold _ N1) in H1. destruct k1 as [c1 s1].
      apply Hwell, well_attached_lt in H1. lia.
    + rewrite (Hold _ N1) in H1. rewrite (Hold _ N2) in H2.
      eapply Hinj; eassumption.
Qed.

Lemma Connections_of_ok c h :
  heap_ok h ->
  heap_ok (snd (Connections_of c h))
  /\ attached (snd (Connections_of c h)) !! ([] : IConstruct, CONNECTIONS_SYMBOL)
     = Some (fst (Connections_of c h)).
Proof.
  intros Hok. unfold Connections_of.
  destruct (get_symbol [] CONNECTIONS_SYMBOL h) as [l|] eqn:E; simpl.
  - split; [exact Hok | exact E].
  - split.
    + apply (heap_ok_attach_new h [] CONNECTIONS_SYMBOL (ConnectionsObject []) Hok E).
      intros h' Ho _. simpl. split; [reflexivity|]. eauto.
    + apply lookup_insert_eq.
Qed.

Lemma Node_of_ok c h : heap_ok h -> heap_ok (snd (Node.of_ c h)).
Proof.
  intros Hok. unfold Node.of_.
  destruct (get_symbol c NODE_SYMBOL h) as [l|] eqn:E; simpl; [exact Hok|].
  unfold Node.new.
  destruct (Connections_of_ok c h Hok) as [Hok1 Hreg].
  assert (E1 : attached (snd (Connections_of c h)) !! (c, NODE_SYMBOL) = None).
  { unfold Connections_of.
    destruct (get_symbol [] CONNECTIONS_SYMBOL h); simpl; [exact E|].
    rewrite lookup_insert_ne by congruence. exact E. }
  destruct (Connections_of c h) as [conns h1]; simpl in *.
  apply (heap_ok_attach_new h1 c NODE_SYMBOL _ Hok1 E1).
  intros h' Ho Hold. simpl. eexists. split; [exact Ho|]. split; [reflexivity|].
  simpl. rewrite Hold by congruence. exact Hreg.
Qed.

Lemma Display_of_ok c h : heap_ok h -> heap_ok (snd (Display.of_ c h)).
Proof.
  intros Hok. unfold Display.of_.
  destruct (get_symbol c DISPLAY_SYMBOL h) as [l|] eqn:E; simpl; [exact Hok|].
  apply (heap_ok_attach_new h c DISPLAY_SYMBOL _ Hok E).
  intros h' Ho _. simpl. eauto.
Qed.

Lemma addConnection_ok n p h : heap_ok h -> heap_ok (Node.addConnection n p h).
Proof.
  intros [Hwell Hinj]. unfold Node.addConnection.
  destruct (objects h !! n) as [[nf| |]|] eqn:En; try (split; assumption).
  destruct (objects h !! _connections nf) as [[| |cs]|] eqn:Ec;
    try (split; assumption).
  split; [|exact Hinj]. simpl.
  intros c s l Hl. specialize (Hwell _ _ _ Hl).
  assert (Hlt : (_connections nf < List.length (objects h))%nat)
    by (eapply lookup_lt_Some, Ec).
  assert (Hkeep : forall l' x, l' <> _connections nf -> objects h !! l' = Some x ->
            <[_connections nf := ConnectionsObject (cs ++ [p])]> (objects h) !! l'
            = Some x).
  { intros l' x Hne Hx. rewrite list_lookup_insert_ne by congruence. exact Hx. }
  destruct s; simpl in *.
  - destruct Hwell as (m & Ho & Hc & Hr). exists m.
    split; [|split; assumption]. apply Hkeep; [|exact Ho].
    intros ->. congruence.
  - destruct Hwell as (d & Ho). exists d. apply Hkeep; [|exact Ho].
    intros ->. congruence.
  - destruct Hwell as (-> & cs' & Ho). split; [reflexivity|].
    destruct (decide (l = _connections nf)) as [->|Hne].
    + eexists. now apply list_lookup_insert_eq.
    + exists cs'. now apply Hkeep.
Qed.

Lemma run_calls_ok calls h : heap_ok h -> heap_ok (run_calls calls h).
Proof.
  revert h. induction calls as [|c calls IH]; intros h Hok; simpl; [exact Hok|].
  apply IH. destruct c; simpl.
  - now apply Node_of_ok.
  - now apply Display_of_ok.
  - now apply addConnection_ok.
Qed.

Lemma reachable_ok h : reachable h -> heap_ok h.
Proof. intros [calls ->]. apply run_calls_ok, heap_ok_empty. Qed.

End ReachFacts.

Section AttachedFacts.
Import Constructs Heap Attach Reach.

Lemma connections_alloc h o (c : IConstruct) s :
  heap_ok h -> (c, s) <> ([] : IConstruct, CONNECTIONS_SYMBOL) ->
  connections (set_symbol c s (List.length (objects h)) (snd (alloc o h)))
  = connections h.
Proof.
  intros [Hwell _] Hne. unfold connections, get_symbol; simpl.
  rewrite lookup_insert_ne by exact Hne.
  destruct (attached h !! ([] : IConstruct, CONNECTIONS_SYMBOL)) as [l|] eqn:E;
    [|reflexivity].
  destruct (Hwell _ _ _ E) as (_ & cs & Ho). simpl.
  rewrite lookup_app_l by (eapply lookup_lt_Some, Ho). reflexivity.
Qed.

Lemma connections_Connections_of c h :
  connections (snd (Connections_of c h)) = connections h.
Proof.
  unfold Connections_of.
  destruct (get_symbol [] CONNECTIONS_SYMBOL h) as [l|] eqn:E; simpl; [reflexivity|].
  unfold connections at 2. rewrite E.
  unfold connections, get_symbol; simpl. rewrite lookup_insert_eq.
  rewrite lookup_app_r by lia. now rewrite Nat.sub_diag.
Qed.

Lemma connections_Node_of c h :
  heap_ok h -> connections (snd (Node.of_ c h)) = connections h.
Proof.
  intros Hok. unfold Node.of_.
  destruct (get_symbol c NODE_SYMBOL h) as [l|] eqn:E; simpl; [reflexivity|].
  unfold Node.new.
  pose proof (connections_Connections_of c h) as Hc.
  destruct (Connections_of_ok c h Hok) as [Hok1 _].
  destruct (Connections_of c h) as [conns h1]; simpl in *.
  rewrite <- Hc. apply (connections_alloc h1); [exact Hok1 | congruence].
Qed.

Lemma connections_Display_of c h :
  heap_ok h -> connections (snd (Display.of_ c h)) = connections h.
Proof.
  intros Hok. unfold Display.of_.
  destruct (get_symbol c DISPLAY_SYMBOL h) as [l|] eqn:E; simpl; [reflexivity|].
  apply (connections_alloc h); [exact Hok | congruence].
Qed.

(** in a heap in order, [addConnection] through an attached node appends to
    the registry *)
Lemma connections_addConnection h (c : IConstruct) n p :
  heap_ok h -> attached h !! (c, NODE_SYMBOL) = Some n ->
  connections (Node.addConnection n p h) = (connections h ++ [p])%list.
Proof.
  intros [Hwell _] Hn.
  destruct (Hwell _ _ _ Hn) as (nf & Ho & _ & Hr).
  destruct (Hwell _ _ _ Hr) as (_ & cs & Hc).
  unfold Node.addConnection. rewrite Ho, Hc.
  unfold connections, get_symbol; simpl. rewrite Hr, Hc.
  rewrite list_lookup_insert_eq by (eapply lookup_lt_Some, Hc). reflexivity.
Qed.

End AttachedFacts.

(** X1. On a heap that the attachment calls have produced, [Node.of] gives
    two constructs the same node only if they are the same construct, and a
    node is never the display of any construct. *)
Theorem Node_of_injective (calls : list Attach.call)
    (c1 c2 : Constructs.IConstruct) :
  let h := Attach.run_calls calls Heap.empty in
  let r1 := Node.of_ c1 h in
  let r2 := Node.of_ c2 (snd r1) in
  (fst r1 = fst r2 <-> c1 = c2)
  /\ fst r1 <> fst (Display.of_ c2 (snd r1)).
Proof.
  intros h r1 r2.
  assert (Hok : Reach.heap_ok h) by (apply run_calls_ok, heap_ok_empty).
  assert (H1 : Heap.attached (snd r1) !! (c1, Heap.NODE_SYMBOL) = Some (fst r1))
    by apply Node_of_caches.
  split; [split|].
  - intros E.
    assert (Hok2 : Reach.heap_ok (snd r2)) by (apply Node_of_ok, Node_of_ok, Hok).
    assert (H2 : Heap.attached (snd r2) !! (c2, Heap.NODE_SYMBOL) = Some (fst r2))
      by apply Node_of_caches.
    apply (Node_of_attached c2) in H1. fold r2 in H1. rewrite E in H1.
    pose proof (proj2 Hok2 _ _ _ H1 H2) as K. congruence.
  - intros <-. unfold r2. now rewrite (Node_of_cached _ _ _ H1).
  - intros E.
    set (r3 := Display.of_ c2 (snd r1)) in *.
    assert (Hok3 : Reach.heap_ok (snd r3)) by (apply Display_of_ok, Node_of_ok, Hok).
    assert (H3 : Heap.attached (snd r3) !! (c2, Heap.DISPLAY_SYMBOL) = Some (fst r3))
      by apply Display_of_caches.
    apply (Display_of_attached c2) in H1. fold r3 in H1. rewrite E in H1.
    pose proof (proj2 Hok3 _ _ _ H1 H3) as K. congruence.
Qed.

(** X2. On a heap that the attachment calls have produced, what
    [Node.of(c)] returns is a Node object whose construct is [c], and what
    [Display.of(c)] returns is a Display object; this stays so after any
    later attachment calls. *)
Theorem of_returns_companion (calls later : list Attach.call)
    (c : Constructs.IConstruct) :
  let h := Attach.run_calls calls Heap.empty in
  (exists n,
     Heap.objects (Attach.run_calls later (snd (Node.of_ c h))) !! fst (Node.of_ c h)
     = Some (Heap.NodeObject n)
     /\ Heap._constructsNode n = c)
  /\ (exists d,
        Heap.objects (Attach.run_calls later (snd (Display.of_ c h)))
          !! fst (Display.of_ c h)
        = Some (Heap.DisplayObject d)).
Proof.
  intros h.
  assert (Hok : Reach.heap_ok h) by (apply run_calls_ok, heap_ok_empty).
  split.
  - assert (Hok' : Reach.heap_ok (Attach.run_calls later (snd (Node.of_ c h))))
      by (apply run_calls_ok, Node_of_ok, Hok).
    pose proof (run_calls_attached later _ _ _ (Node_of_caches c h)) as Ha.
    destruct (proj1 Hok' _ _ _ Ha) as (n & Ho & Hc & _). eauto.
  - assert (Hok' : Reach.heap_ok (Attach.run_calls later (snd (Display.of_ c h))))
      by (apply run_calls_ok, Display_of_ok, Hok).
    pose proof (run_calls_attached later _ _ _ (Display_of_caches c h)) as Ha.
    exact (proj1 Hok' _ _ _ Ha).
Qed.

(** On such a heap, a connection added through the node of any construct is
    appended to the one list of connections of the tree, after those added
    before through whatever node; [Node.of] and [Display.of] leave that list
    as it is. *)
Lemma addConnection_appends (calls : list Attach.call)
    (c c' : Constructs.IConstruct) (props : Heap.AddConnectionProps) :
  let h := Attach.run_calls calls Heap.empty in
  let r := Node.of_ c h in
  Reach.connections (Node.addConnection (fst r) props (snd r))
  = (Reach.connections h ++ [props])%list
  /\ Reach.connections (snd (Node.of_ c' h)) = Reach.connections h
  /\ Reach.connections (snd (Display.of_ c' h)) = Reach.connections h.
Proof.
  intros h r.
  assert (Hok : Reach.heap_ok h) by (apply run_calls_ok, heap_ok_empty).
  split; [|split].
  - rewrite (connections_addConnection (snd r) c).
    + unfold r. now rewrite connections_Node_of.
    + apply Node_of_ok, Hok.
    + apply Node_of_caches.
  - now apply connections_Node_of.
  - now apply connections_Display_of.
Qed.

(** ** The AWS view of an api *)

Section ApiFacts.
Import Api.

Lemma isAwsApi_ext (api api' : Api.object) :
  (forall key, key ∈ IAwsApi -> get api' key = get api key) ->
  isAwsApi api' = isAwsApi api.
Proof.
  intros H. unfold isAwsApi.
  rewrite !H by (unfold IAwsApi; repeat constructor). reflexivity.
Qed.

End ApiFacts.

(** X3. [Api.from] looks at the six properties of [IAwsApi] only: setting
    or deleting any other property does not change whether an api passes
    as an AWS api, whereas deleting one of the six, or setting it to
    anything that is not a string, makes the result [undefined]. *)
Theorem from_duck_typing (api : Api.object) (key : string) (v : Api.value) :
  (key ∉ Api.IAwsApi ->
     (Api.from (<[key := v]> api) = Some (<[key := v]> api)
      <-> Api.from api = Some api)
     /\ (Api.from (delete key api) = Some (delete key api)
         <-> Api.from api = Some api))
  /\ (key ∈ Api.IAwsApi ->
      Api.from (delete key api) = None
      /\ (Api.typeof v <> "string" -> Api.from (<[key := v]> api) = None)).
Proof.
  split.
  - intros Hk.
    assert (Hi : Api.isAwsApi (<[key := v]> api) = Api.isAwsApi api).
    { apply isAwsApi_ext. intros k' Hk'. unfold Api.get, Api.object.
      rewrite lookup_insert_ne; [reflexivity|]. intros ->. contradiction. }
    assert (Hd : Api.isAwsApi (delete key api) = Api.isAwsApi api).
    { apply isAwsApi_ext. intros k' Hk'. unfold Api.get, Api.object.
      rewrite lookup_delete_ne; [reflexivity|]. intros ->. contradiction. }
    unfold Api.from. rewrite Hi, Hd.
    destruct (Api.isAwsApi api); split; split; intros; (reflexivity || discriminate).
  - intros Hk. unfold Api.from. split.
    + destruct (Api.isAwsApi (delete key api)) eqn:E; [|reflexivity].
      destruct (proj1 (isAwsApi_spec _) E key Hk) as [s Hs].
      unfold Api.get, Api.object in Hs. rewrite lookup_delete_eq in Hs. discriminate.
    + intros Hv.
      destruct (Api.isAwsApi (<[key := v]> api)) eqn:E; [|reflexivity].
      destruct (proj1 (isAwsApi_spec _) E key Hk) as [s Hs].
      unfold Api.get, Api.object in Hs. rewrite lookup_insert_eq in Hs. simpl in Hs.
      subst v. exfalso. apply Hv. reflexivity.
Qed.

Lemma from_duck_typing_witness :
  let api : Api.object :=
    list_to_map [("restApiArn", Api.VString "arn"); ("restApiId", Api.VString "id");
                 ("restApiName", Api.VString "name"); ("stageName", Api.VString "prod");
                 ("invokeUrl", Api.VString "https://x");
                 ("deploymentId", Api.VString "d")] in
  Api.from api = Some api
  /\ Api.from (<["url" := Api.VNumber 1]> api) = Some (<["url" := Api.VNumber 1]> api)
  /\ Api.from (delete "stageName" api) = None
  /\ Api.from (<["invokeUrl" := Api.VNull]> api) = None.
Proof.
  intros api.
  assert (H0 : Api.from api = Some api) by (vm_compute; reflexivity).
  assert (Hout : "url" ∉ Api.IAwsApi).
  { unfold Api.IAwsApi. rewrite !not_elem_of_cons. repeat split; try discriminate.
    apply not_elem_of_nil. }
  assert (Hin1 : "stageName" ∈ Api.IAwsApi) by (unfold Api.IAwsApi; repeat constructor).
  assert (Hin2 : "invokeUrl" ∈ Api.IAwsApi) by (unfold Api.IAwsApi; repeat constructor).
  split; [exact H0|]. split; [|split].
  - exact (proj2 (proj1 (proj1 (from_duck_typing api "url" (Api.VNumber 1)) Hout)) H0).
  - exact (proj1 (proj2 (from_duck_typing api "stageName" Api.VNull) Hin1)).
  - refine (proj2 (proj2 (from_duck_typing api "invokeUrl" Api.VNull) Hin2) _).
    discriminate.
Defined.

(** ** What the Function constructor builds and what it leaves alone *)

Section FrameFacts.
Import Constructs Synth Frame.

Lemma inside_refl c w : inside c w w.
Proof. repeat split. Qed.

Lemma inside_trans c w1 w2 w3 : inside c w1 w2 -> inside c w2 w3 -> inside c w1 w3.
Proof.
  intros (A1 & A2 & A3 & A4 & A5 & A6) (B1 & B2 & B3 & B4 & B5 & B6).
  repeat split; try congruence.
  - rewrite (proj1 (B6 d H)). apply A6, H.
  - rewrite (proj2 (B6 d H)). apply A6, H.
Qed.

Lemma preserves_ret {A} c (a : A) : preserves (inside c) (ret a).
Proof. intros w. apply inside_refl. Qed.

Lemma preserves_gets {A} c (f : World -> A) : preserves (inside c) (gets f).
Proof. intros w. apply inside_refl. Qed.

Lemma preserves_throw {A} c e : preserves (inside c) (@throw A e).
Proof. intros w. apply inside_refl. Qed.

Lemma preserves_bind {A B} c (m : M A) (k : A -> M B) :
  preserves (inside c) m -> (forall a, preserves (inside c) (k a)) ->
  preserves (inside c) (bind m k).
Proof.
  intros Hm Hk w. unfold bind. specialize (Hm w).
  destruct (m w) as [[a|e] w1]; simpl in *; [|exact Hm].
  eapply inside_trans; [exact Hm | apply Hk].
Qed.

Lemma preserves_if {A} c (b : bool) (m1 m2 : M A) :
  preserves (inside c) m1 -> preserves (inside c) m2 ->
  preserves (inside c) (if b then m1 else m2).
Proof. now destruct b. Qed.

(** a child created at or beneath [c] changes nothing outside [c] *)
Lemma preserves_Construct_new (c s : IConstruct) i r :
  c `suffix_of` s -> preserves (inside c) (Construct.new s i r).
Proof.
  intros Hcs w. unfold Construct.new.
  destruct (addChild (tree w) s i) as [t|e] eqn:E; simpl; [|apply inside_refl].
  unfold addChild in E. destruct (locked (tree w) s); [discriminate|].
  case_bool_decide; [discriminate|]. injection E as <-.
  repeat split; simpl.
  - rewrite lookup_insert_ne.
    + rewrite lookup_alter_ne; [reflexivity|]. intros ->. contradiction.
    + intros <-. apply H0. now apply suffix_cons_r.
  - rewrite lookup_insert_ne; [reflexivity|].
    intros <-. apply H0. now apply suffix_cons_r.
Qed.

Lemma building_ready t (this : IConstruct) kids :
  building t this kids -> ready t this kids.
Proof. intros (Hl & _ & Hfree & _). split; assumption. Qed.

Lemma building_insert_child t (this : IConstruct) kids i :
  building t this kids -> ~ In i kids ->
  building (insert_child t this i) this (kids ++ [i]).
Proof.
  intros (Hl & (n & Hn & Hk) & Hfree & Hkids) Hi. split; [|split; [|split]].
  - rewrite locked_insert_child; [exact Hl|].
    intros H. apply suffix_length in H. simpl in H. lia.
  - unfold insert_child; simpl.
    rewrite lookup_insert_ne
      by (intros E; apply (f_equal List.length) in E; simpl in E; lia).
    rewrite lookup_alter_eq, Hn. simpl. eexists. split; [reflexivity|].
    simpl. now rewrite Hk.
  - intros j Hj. rewrite lookup_insert_child.
    + apply Hfree. intros Hin. apply Hj, in_or_app. now left.
    + intros E. injection E as ->. apply Hj, in_or_app. right. now left.
    + intros E. apply (f_equal List.length) in E. simpl in E. lia.
  - intros j Hj. apply in_app_or in Hj as [Hj|[<-|[]]].
    + apply insert_child_keeps, Hkids, Hj.
    + unfold insert_child; simpl. rewrite lookup_insert_eq. eauto.
Qed.

Lemma building_fresh t (s : IConstruct) i :
  locked t s = false -> unused t (i :: s) ->
  building (insert_child t s i) (i :: s) [].
Proof.
  intros Hl Hu. destruct (ready_fresh t s i Hl Hu) as [Hl' Hfree].
  split; [exact Hl'|]. split; [|split; [exact Hfree|intros j []]].
  unfold insert_child; simpl. rewrite lookup_insert_eq. eauto.
Qed.

Lemma Construct_new_building w (this : IConstruct) kids i r :
  building (tree w) this kids -> ~ In i kids ->
  Construct.new this i r w
  = (Returned (i :: this),
     set_resource (i :: this) r (set_tree (insert_child (tree w) this i) w))
  /\ building (insert_child (tree w) this i) this (kids ++ [i]).
Proof.
  intros Hb Hi. split; [|now apply building_insert_child].
  apply (Construct_new_ready w this kids i r); [now apply building_ready | exact Hi].
Qed.

(** what happens at or beneath a child does not disturb the building of
    [this] *)
Lemma building_inside w w' (this : IConstruct) kids i :
  building (tree w) this kids -> In i kids -> inside (i :: this) w w' ->
  is_Some (nodes (tree w') !! (i :: this)) ->
  building (tree w') this kids.
Proof.
  intros (Hl & (n & Hn & Hk) & Hfree & Hkids) Hi (_ & _ & _ & _ & _ & Hout) Hstill.
  assert (Hshort : forall d : IConstruct, d `suffix_of` this -> ~ (i :: this) `suffix_of` d).
  { intros d Hd H. apply suffix_length in Hd, H. simpl in H. lia. }
  assert (Hsib : forall j, j <> i -> ~ (i :: this) `suffix_of` (j :: this)).
  { intros j Hj [k E]. destruct k as [|x k].
    - injection E as ->. contradiction.
    - apply (f_equal List.length) in E. simpl in E. rewrite length_app in E.
      simpl in E. lia. }
  split; [|split; [|split]].
  - rewrite <- Hl. apply locked_ext. intros d Hd. unfold node_of.
    now rewrite (proj1 (Hout d (Hshort d Hd))).
  - exists n. split; [|exact Hk].
    rewrite (proj1 (Hout this (Hshort this ltac:(reflexivity)))). exact Hn.
  - intros j Hj.
    assert (Hji : j <> i) by (intros ->; contradiction).
    rewrite (proj1 (Hout (j :: this) (Hsib j Hji))). now apply Hfree.
  - intros j Hj. destruct (decide (j = i)) as [->|Hji]; [exact Hstill|].
    rewrite (proj1 (Hout (j :: this) (Hsib j Hji))). now apply Hkids.
Qed.

End FrameFacts.

Section FunctionRun.
Import Constructs Synth Frame GcpFunction.

Ltac ne_path :=
  first [ congruence
        | let E := fresh in
          intros E; apply (f_equal (@List.length string)) in E; simpl in E; lia ].

(** [new R(this, i, ...)] on a construct that is being built, with the
    world it leaves *)
Lemma Construct_new_step w (this : IConstruct) kids i r :
  building (tree w) this kids -> ~ In i kids ->
  exists w',
    Construct.new this i r w = (Returned (i :: this), w')
    /\ building (tree w') this (kids ++ [i])
    /\ collab w' = collab w
    /\ resources w' = <[i :: this := r]> (resources w).
Proof.
  intros Hb Hi. destruct (Construct_new_building w this kids i r Hb Hi) as [E B'].
  eexists. split; [exact E|]. split; [exact B'|]. split; reflexivity.
Qed.

Ltac step_build R name w' :=
  let E := fresh "E" in
  let R' := fresh "R" in
  let C := fresh "C" in
  let S := fresh "S" in
  match goal with
  | |- context [bind (Construct.new ?this name ?r) ?k ?w] =>
      destruct (Construct_new_step w this _ name r R
                  ltac:(simpl; intuition discriminate)) as (w' & E & R' & C & S);
      rewrite (bind_returned _ k _ _ _ E); clear E
  end.

(** The tree and the resources the constructor leaves behind, on a scope
    that accepts the new function. *)
Lemma new_run w (scope : IConstruct) id inflight props :
  locked (tree w) scope = false ->
  unused (tree w) (id :: scope) ->
  let w' := snd (new scope id inflight props w) in
  let this := id :: scope in
  resources w' !! this = Some (CloudFunction inflight props)
  /\ resources w' !! ("Id" :: this) = Some (Id 4)
  /\ (exists bucket, resources w' !! ("Function_Object_Bucket" :: this)
                     = Some (StorageBucketObject "objects" bucket
                               (attribute (collab w) ("Asset" :: this) "path")))
  /\ if memory_out_of_limits props || timeout_out_of_limits props
     then building (tree w') this
            ["Asset"; "Id"; "Function_Bucket"; "Function_Object_Bucket"]
     else building (tree w') this
            ["Asset"; "Id"; "Function_Bucket"; "Function_Object_Bucket";
             "Default_Function"]
          /\ exists name bucket object,
               resources w' !! ("Default_Function" :: this)
               = Some (CloudfunctionsFunction
                   {| cf_name := name;
                      cf_description := "This function was created by Wing";
                      cf_project := projectId (collab w);
                      cf_region := storageLocation (collab w);
                      cf_runtime := "nodejs16";
                      availableMemoryMb := default (Js.int 128) (memory props);
                      sourceArchiveBucket := bucket;
                      sourceArchiveObject := object;
                      entryPoint := "handler";
                      triggerHttp := true;
                      cf_timeout := default (Js.int 60) (seconds <$> timeout props);
                      environmentVariables := default ∅ (env props) |}).
Proof.
  intros Hl Hu w' this. subst w' this. unfold new.
  destruct (Construct_new_fresh w scope id (CloudFunction inflight props) Hl Hu)
    as [E0 _].
  pose proof (building_fresh (tree w) scope id Hl Hu) as R0.
  rewrite (bind_returned _ _ _ _ _ E0); clear E0.
  set (w0 := set_resource (id :: scope) (CloudFunction inflight props)
               (set_tree (insert_child (tree w) scope id) w)) in *.
  assert (C0 : collab w0 = collab w) by reflexivity.
  assert (S0 : resources w0 !! (id :: scope) = Some (CloudFunction inflight props))
    by apply lookup_insert_eq.
  change (building (tree w0) (id :: scope) []) in R0.
  clearbody w0.
  rewrite bind_gets. rewrite C0.
  step_build R0 "Asset" w1. rewrite bind_gets.
  step_build R "Id" w2.
  step_build R1 "Function_Bucket" w3.
  step_build R2 "Function_Object_Bucket" w4.
  assert (Hfn : resources w4 !! (id :: scope) = Some (CloudFunction inflight props)).
  { rewrite S3, S2, S1, S. rewrite !lookup_insert_ne by ne_path. exact S0. }
  assert (Hid : resources w4 !! ("Id" :: id :: scope) = Some (Id 4)).
  { rewrite S3, S2, S1. rewrite !lookup_insert_ne by ne_path. apply lookup_insert_eq. }
  assert (Hob : exists bucket,
            resources w4 !! ("Function_Object_Bucket" :: id :: scope)
            = Some (StorageBucketObject "objects" bucket
                      (attribute (collab w) ("Asset" :: id :: scope) "path"))).
  { rewrite S3. eexists. apply lookup_insert_eq. }
  destruct (memory_out_of_limits props).
  { cbn [orb]. rewrite bind_throw. cbn [snd]. auto. }
  cbv iota. rewrite bind_ret.
  destruct (timeout_out_of_limits props).
  { cbn [orb]. rewrite bind_throw. cbn [snd]. auto. }
  cbv iota. rewrite bind_ret, bind_gets.
  step_build R3 "Default_Function" w5.
  cbn [orb]. unfold ret. cbn [snd].
  refine (conj _ (conj _ (conj _ (conj _ _)))).
  - rewrite S4, lookup_insert_ne by ne_path. exact Hfn.
  - rewrite S4, lookup_insert_ne by ne_path. exact Hid.
  - destruct Hob as [b Hb]. exists b.
    rewrite S4, lookup_insert_ne by ne_path. exact Hb.
  - exact R4.
  - rewrite S4. do 3 eexists. apply lookup_insert_eq.
Qed.

(** whatever the constructor does after entering the tree, it does at or
    beneath the new function *)
Lemma new_inside (scope : IConstruct) id inflight props w :
  inside (id :: scope)
    (snd (Construct.new scope id (CloudFunction inflight props) w))
    (snd (new scope id inflight props w)).
Proof.
  unfold new.
  destruct (Construct.new scope id (CloudFunction inflight props) w)
    as [[this|e] w1] eqn:E.
  2: { rewrite (bind_thrown _ _ _ _ _ E). apply inside_refl. }
  rewrite (bind_returned _ _ _ _ _ E). simpl.
  assert (this = id :: scope) as ->.
  { unfold Construct.new in E. destruct (addChild (tree w) scope id); congruence. }
  revert w1 E. intros w1 _.
  match goal with |- inside ?c ?w (snd (?m ?w)) =>
    revert w; change (preserves (inside c) m) end.
  repeat first
    [ apply preserves_ret | apply preserves_gets | apply preserves_throw
    | apply preserves_if
    | apply preserves_Construct_new; reflexivity
    | apply preserves_bind; [|intros ?] ].
Qed.

End FunctionRun.

Section FunctionFrame.
Import Constructs Synth Frame GcpFunction.

(** what [new R(s, i, ...)] changes: the new construct, and the list of
    children of [s] *)
Lemma Construct_new_outside (s : IConstruct) i r w :
  let w1 := snd (Construct.new s i r w) in
  collab w1 = collab w /\ heap w1 = heap w /\ schedules w1 = schedules w
  /\ _newInstanceIds w1 = _newInstanceIds w
  /\ forall d : IConstruct, d <> i :: s ->
       resources w1 !! d = resources w !! d
       /\ _locked (node_of (tree w1) d) = _locked (node_of (tree w) d)
       /\ _validations (node_of (tree w1) d) = _validations (node_of (tree w) d)
       /\ (d <> s -> nodes (tree w1) !! d = nodes (tree w) !! d).
Proof.
  unfold Construct.new.
  destruct (addChild (tree w) s i) as [t|e] eqn:E; simpl; [|repeat split].
  unfold addChild in E. destruct (locked (tree w) s); [discriminate|].
  case_bool_decide; [discriminate|]. injection E as <-.
  repeat split; simpl.
  - now rewrite lookup_insert_ne.
  - now apply flag_insert_child.
  - unfold node_of, insert_child; simpl.
    rewrite lookup_insert_ne by congruence.
    destruct (decide (s = d)) as [->|Hne].
    + rewrite lookup_alter_eq. now destruct (nodes (tree w) !! d).
    + now rewrite lookup_alter_ne.
  - intros Hd. now apply lookup_insert_child.
Qed.

Lemma building_children t (this : IConstruct) kids :
  building t this kids ->
  children t this = map (fun i => i :: this) kids
  /\ Forall (fun c => is_Some (nodes t !! c)) (children t this)
  /\ is_Some (nodes t !! this)
  /\ locked t this = false.
Proof.
  intros (Hl & (n & Hn & Hk) & _ & Hkids).
  assert (E : children t this = map (fun i => i :: this) kids).
  { unfold children, node_of. rewrite Hn. simpl. now rewrite Hk. }
  split; [exact E|]. split; [|split; [eauto | exact Hl]].
  rewrite E. apply Forall_forall. intros c Hc.
  apply list_elem_of_In, in_map_iff in Hc as (i & <- & Hi). now apply Hkids.
Qed.

End FunctionFrame.

(** X4. The limits are checked after the function has entered the tree: on
    a scope that accepts the new function, props with an out-of-limit memory
    or timeout make the constructor throw, and the function construct is
    then in the tree with its four helper resources (Asset, Id,
    Function_Bucket, Function_Object_Bucket, in this order), all of them in
    the tree, but without a provider function. *)
Theorem Function_new_rejected_leaves_parts (w : Synth.World)
    (scope : Constructs.IConstruct) (id : string) (inflight : Synth.Inflight)
    (props : Synth.FunctionProps) :
  Node.locked (Synth.tree w) scope = false ->
  Constructs.unused (Synth.tree w) (id :: scope) ->
  GcpFunction.memory_out_of_limits props || GcpFunction.timeout_out_of_limits props
  = true ->
  let r := GcpFunction.new scope id inflight props w in
  let this := id :: scope in
  (fst r = Thrown (Error GcpFunction.MEMORY_ERROR)
   \/ fst r = Thrown (Error GcpFunction.TIMEOUT_ERROR))
  /\ Construct.has (snd r) this
  /\ Synth.resources (snd r) !! this = Some (Synth.CloudFunction inflight props)
  /\ Constructs.children (Synth.tree (snd r)) this
     = ["Asset" :: this; "Id" :: this; "Function_Bucket" :: this;
        "Function_Object_Bucket" :: this]
  /\ Forall (Construct.has (snd r)) (Constructs.children (Synth.tree (snd r)) this)
  /\ Constructs.nodes (Synth.tree (snd r)) !! ("Default_Function" :: this) = None.
Proof.
  intros Hl Hu Hout r this.
  pose proof (new_outcome w scope id inflight props Hl Hu) as Ho.
  pose proof (new_run w scope id inflight props Hl Hu) as (Hr & _ & _ & Hb).
  cbv zeta in Ho, Hb, Hr. fold r in Ho, Hb, Hr. fold this in Hb, Hr.
  rewrite Hout in Hb.
  destruct (building_children _ _ _ Hb) as (Hc & Hall & Hthis & _).
  split; [|split; [exact Hthis|split; [exact Hr|split; [exact Hc|split; [exact Hall|]]]]].
  - destruct (GcpFunction.memory_out_of_limits props); [now left|].
    simpl in Hout. rewrite Hout in Ho. now right.
  - destruct Hb as (_ & _ & Hfree & _). apply Hfree. simpl. intuition discriminate.
Qed.

Lemma Function_new_rejected_leaves_parts_witness :
  let r := GcpFunction.new [] "f" Demo.handler (Demo.with_memory 9000) Demo.world in
  fst r = Thrown (Error GcpFunction.MEMORY_ERROR)
  /\ Constructs.children (Synth.tree (snd r)) ["f"]
     = [["Asset"; "f"]; ["Id"; "f"]; ["Function_Bucket"; "f"];
        ["Function_Object_Bucket"; "f"]]
  /\ Constructs.nodes (Synth.tree (snd r)) !! ["Default_Function"; "f"] = None.
Proof.
  intros r.
  assert (Hl : Node.locked (Synth.tree Demo.world) [] = false) by reflexivity.
  assert (Hu : Constructs.unused (Synth.tree Demo.world) ["f"])
    by apply unused_new_tree.
  destruct (Function_new_rejected_leaves_parts Demo.world [] "f" Demo.handler
              (Demo.with_memory 9000) Hl Hu eq_refl)
    as (_ & _ & _ & Hc & _ & Hd).
  split; [vm_compute; reflexivity|]. split; [exact Hc | exact Hd].
Defined.

(** X5. On a scope that accepts the new function and with props within the
    limits, the constructor returns the function with exactly five
    children, in the order Asset, Id, Function_Bucket,
    Function_Object_Bucket, Default_Function.  The random id has 4 bytes,
    the archive object is named "objects", and the provider function runs
    "nodejs16" with entry point "handler", an HTTP trigger, the project and
    region of the app, the timeout of the props or 60 seconds when absent,
    and the environment of the props or an empty one. *)
Theorem Function_new_synthesizes (w : Synth.World)
    (scope : Constructs.IConstruct) (id : string) (inflight : Synth.Inflight)
    (props : Synth.FunctionProps) :
  Node.locked (Synth.tree w) scope = false ->
  Constructs.unused (Synth.tree w) (id :: scope) ->
  GcpFunction.memory_out_of_limits props = false ->
  GcpFunction.timeout_out_of_limits props = false ->
  let r := GcpFunction.new scope id inflight props w in
  let this := id :: scope in
  fst r = Returned this
  /\ Constructs.children (Synth.tree (snd r)) this
     = ["Asset" :: this; "Id" :: this; "Function_Bucket" :: this;
        "Function_Object_Bucket" :: this; "Default_Function" :: this]
  /\ Forall (Construct.has (snd r)) (Constructs.children (Synth.tree (snd r)) this)
  /\ Synth.resources (snd r) !! ("Id" :: this) = Some (Synth.Id 4)
  /\ (exists bucket source,
        Synth.resources (snd r) !! ("Function_Object_Bucket" :: this)
        = Some (Synth.StorageBucketObject "objects" bucket source))
  /\ exists config,
       GcpFunction.function (snd r) this = Some config
       /\ Synth.cf_runtime config = "nodejs16"
       /\ Synth.entryPoint config = "handler"
       /\ Synth.triggerHttp config = true
       /\ Synth.cf_project config = Synth.projectId (Synth.collab w)
       /\ Synth.cf_region config = Synth.storageLocation (Synth.collab w)
       /\ Synth.cf_timeout config
          = match Synth.timeout props with
            | Some d => Synth.seconds d
            | None => Js.int 60
            end
       /\ Synth.environmentVariables config
          = match Synth.env props with
            | Some e => e
            | None => ∅
            end.
Proof.
  intros Hl Hu Hm Ht r this.
  pose proof (new_outcome w scope id inflight props Hl Hu) as Ho.
  pose proof (new_run w scope id inflight props Hl Hu) as (_ & Hid & Hobj & Hb).
  cbv zeta in Ho, Hb, Hid, Hobj. fold r in Ho, Hb, Hid, Hobj.
  fold this in Hb, Hid, Hobj.
  rewrite Hm, Ht in Ho, Hb. simpl in Hb.
  destruct Hb as (Hb & name & bucket & object & Hcfg).
  destruct (building_children _ _ _ Hb) as (Hc & Hall & _ & _).
  split; [apply Ho|]. split; [exact Hc|]. split; [exact Hall|].
  split; [exact Hid|]. split; [destruct Hobj as [b Hb']; eauto|].
  eexists. unfold GcpFunction.function. fold this. rewrite Hcfg.
  split; [reflexivity|]. simpl.
  repeat split; try reflexivity;
    try (now destruct (Synth.timeout props));
    try (now destruct (Synth.env props)).
Qed.

Lemma Function_new_synthesizes_witness :
  let props := Synth.mkProps None (Some (Js.int 512))
                 (Some {| Synth.seconds := Js.int 120 |}) in
  let r := GcpFunction.new [] "f" Demo.handler props Demo.world in
  fst r = Returned ["f"]
  /\ exists config,
       GcpFunction.function (snd r) ["f"] = Some config
       /\ Synth.cf_timeout config = Js.int 120.
Proof.
  intros props r.
  assert (Hl : Node.locked (Synth.tree Demo.world) [] = false) by reflexivity.
  assert (Hu : Constructs.unused (Synth.tree Demo.world) ["f"])
    by apply unused_new_tree.
  destruct (Function_new_synthesizes Demo.world [] "f" Demo.handler props
              Hl Hu eq_refl eq_refl)
    as (Hr & _ & _ & _ & _ & config & Hf & _ & _ & _ & _ & _ & Hto & _).
  split; [exact Hr|]. exists config. split; [exact Hf | exact Hto].
Defined.

Section ScopeFacts.
Import Constructs Synth Frame.

(** the children of the scope of a new construct: as before, with the new
    construct last when it entered the tree *)
Lemma Construct_new_children (s : IConstruct) i r w :
  let w1 := snd (Construct.new s i r w) in
  children (tree w1) s = children (tree w) s
  \/ children (tree w1) s = (children (tree w) s ++ [i :: s])%list.
Proof.
  unfold Construct.new.
  destruct (addChild (tree w) s i) as [t|e] eqn:E; simpl; [|now left].
  unfold addChild in E. destruct (locked (tree w) s); [discriminate|].
  case_bool_decide; [discriminate|]. injection E as <-.
  unfold children, node_of, insert_child; simpl.
  rewrite lookup_insert_ne
    by (intros E; apply (f_equal List.length) in E; simpl in E; lia).
  rewrite lookup_alter_eq.
  destruct (nodes (tree w) !! s) as [n|]; simpl; [|now left].
  right. now rewrite map_app.
Qed.

End ScopeFacts.

(** X6. Whatever the outcome, the constructor changes the tree at the new
    function and beneath it only: every construct that is neither at nor
    beneath the new function keeps its resource, its lock status and its
    validators; but for the scope it keeps its node unchanged altogether,
    and the scope keeps its children, with the new function added last when
    it entered the tree. *)
Theorem Function_new_frame (w : Synth.World) (scope : Constructs.IConstruct)
    (id : string) (inflight : Synth.Inflight) (props : Synth.FunctionProps) :
  let w' := snd (GcpFunction.new scope id inflight props w) in
  (forall d : Constructs.IConstruct, ~ (id :: scope) `suffix_of` d ->
     Synth.resources w' !! d = Synth.resources w !! d
     /\ Node.locked (Synth.tree w') d = Node.locked (Synth.tree w) d
     /\ Constructs.validations (Synth.tree w') d
        = Constructs.validations (Synth.tree w) d
     /\ (d <> scope ->
         Constructs.nodes (Synth.tree w') !! d = Constructs.nodes (Synth.tree w) !! d))
  /\ (Constructs.children (Synth.tree w') scope
      = Constructs.children (Synth.tree w) scope
      \/ Constructs.children (Synth.tree w') scope
         = (Constructs.children (Synth.tree w) scope ++ [id :: scope])%list).
Proof.
  intros w'.
  pose proof (Construct_new_outside scope id (Synth.CloudFunction inflight props) w)
    as (_ & _ & _ & _ & C5).
  pose proof (Construct_new_children scope id (Synth.CloudFunction inflight props) w)
    as Hkids.
  pose proof (new_inside scope id inflight props w) as (_ & _ & _ & _ & _ & I6).
  fold w' in I6. cbv zeta in Hkids.
  set (w1 := snd (Construct.new scope id (Synth.CloudFunction inflight props) w)) in *.
  assert (Hnot : forall d : Constructs.IConstruct,
            ~ (id :: scope) `suffix_of` d -> d <> id :: scope).
  { intros d Hd ->. apply Hd. reflexivity. }
  assert (Hnode : forall d : Constructs.IConstruct, ~ (id :: scope) `suffix_of` d ->
            Constructs._locked (Constructs.node_of (Synth.tree w') d)
            = Constructs._locked (Constructs.node_of (Synth.tree w) d)
            /\ Constructs._validations (Constructs.node_of (Synth.tree w') d)
               = Constructs._validations (Constructs.node_of (Synth.tree w) d)).
  { intros d Hd. destruct (C5 d (Hnot d Hd)) as (_ & L & V & _).
    unfold Constructs.node_of at 1 3. rewrite (proj1 (I6 d Hd)).
    split; [exact L | exact V]. }
  split.
  - intros d Hd. split; [|split; [|split]].
    + rewrite (proj2 (I6 d Hd)). apply (C5 d (Hnot d Hd)).
    + unfold Node.locked. apply locked_ext. intros s Hs.
      apply Hnode. intros H. apply Hd. etransitivity; eassumption.
    + unfold Constructs.validations. apply (Hnode d Hd).
    + intros Hs. rewrite (proj1 (I6 d Hd)). now apply (C5 d (Hnot d Hd)).
  - assert (Hscope : ~ (id :: scope) `suffix_of` scope).
    { intros H. apply suffix_length in H. simpl in H. lia. }
    assert (E : Constructs.children (Synth.tree w') scope
                = Constructs.children (Synth.tree w1) scope).
    { unfold Constructs.children, Constructs.node_of.
      now rewrite (proj1 (I6 scope Hscope)). }
    rewrite E. exact Hkids.
Qed.

(** ** The first [onTick] on a schedule *)

Section OnTickRun.
Import Constructs Synth Frame.

Lemma bind_assoc {A B C} (m : M A) (k1 : A -> M B) (k2 : B -> M C) w :
  bind (bind m k1) k2 w = bind m (fun a => bind (k1 a) k2) w.
Proof. unfold bind. destruct (m w) as [[a|e] w1]; reflexivity. Qed.

Lemma bind_modify {B} (f : World -> World) (k : unit -> M B) w :
  bind (modify f) k w = k tt (f w).
Proof. reflexivity. Qed.

Lemma bind_makeId {B} (s : IConstruct) prefix (k : string -> M B) w :
  bind (Schedule.makeId s prefix) k w
  = k (prefix +:+ Schedule.decimal (_newInstanceIds w)) (bump_ids w).
Proof. reflexivity. Qed.

Lemma bind_call {B C} (f : World -> outcome B) (k : B -> M C) w :
  bind (call f) k w
  = match f w with
    | Returned b => k b w
    | Thrown e => (Thrown e, w)
    end.
Proof. unfold bind, call. now destruct (f w). Qed.

Lemma OnTick_id_head n :
  exists rest, "OnTick" +:+ Schedule.decimal n = String (Ascii.ascii_of_nat 79) rest.
Proof. eexists. reflexivity. Qed.

Lemma childless_building t (this : IConstruct) :
  childless t this -> building t this [].
Proof.
  intros (Hl & Hn & Hnone). split; [exact Hl|]. split; [exact Hn|].
  split; [|intros i []].
  intros i _. apply Hnone; [now apply suffix_cons_r|].
  intros E. apply (f_equal List.length) in E. simpl in E. lia.
Qed.

Lemma childless_unused t (this : IConstruct) i j :
  childless t this -> j <> i -> unused (insert_child t this j) (i :: this).
Proof.
  intros (_ & _ & Hnone) Hji d Hd.
  assert (Hthis : this `suffix_of` d)
    by (etransitivity; [apply suffix_cons_r; reflexivity | exact Hd]).
  assert (Hne : d <> this).
  { intros ->. apply suffix_length in Hd. simpl in Hd. lia. }
  rewrite lookup_insert_child; [now apply Hnone | | exact Hne].
  intros ->. destruct Hd as [k E]. destruct k as [|x k].
  - injection E as ->. contradiction.
  - apply (f_equal List.length) in E. simpl in E. rewrite length_app in E.
    simpl in E. lia.
Qed.

End OnTickRun.

Section OnTickFirst.
Import Constructs Synth Frame.

Variable addPermissionToInvoke : IConstruct -> IConstruct -> M unit.

(** the world in which [onTick] calls the Function constructor *)
Lemma onTick_reaches_new (this : IConstruct) inflight props w :
  childless (tree w) this ->
  let id := "OnTick" +:+ Schedule.decimal (_newInstanceIds w) in
  let api := "CloudSchedulerAPI" :: this in
  let w2 := bump_ids
              (set_resource api (ProjectService "cloudscheduler.googleapis.com" false)
                 (set_tree (insert_child (tree w) this "CloudSchedulerAPI") w)) in
  let fh := convertBetweenHandlers (collab w) inflight
              "schedule.ontick.inflight.js" "ScheduleOnTickHandlerClient" in
  let r := GcpFunction.new this id fh props w2 in
  building (tree w2) this ["CloudSchedulerAPI"]
  /\ locked (tree w2) this = false
  /\ unused (tree w2) (id :: this)
  /\ building (tree (snd r)) this ["CloudSchedulerAPI"; id]
  /\ heap (snd r) = heap w
  /\ schedules (snd r) = schedules w
  /\ collab (snd r) = collab w
  /\ _newInstanceIds (snd r) = S (_newInstanceIds w)
  /\ resources (snd r) !! api
     = Some (ProjectService "cloudscheduler.googleapis.com" false).
Proof.
  intros Hc id api w2 fh r.
  assert (Hid : id <> "CloudSchedulerAPI")
    by (destruct (OnTick_id_head (_newInstanceIds w)) as [rest E];
        unfold id; rewrite E; discriminate).
  pose proof (building_insert_child _ _ _ "CloudSchedulerAPI"
                (childless_building _ _ Hc) ltac:(intros [])) as B1.
  change ([] ++ ["CloudSchedulerAPI"])%list with ["CloudSchedulerAPI"] in B1.
  assert (B2 : building (tree w2) this ["CloudSchedulerAPI"]) by exact B1.
  assert (Hl : locked (tree w2) this = false) by apply B2.
  assert (Hu : unused (tree w2) (id :: this))
    by (apply (childless_unused _ _ id "CloudSchedulerAPI" Hc); congruence).
  split; [exact B2|]. split; [exact Hl|]. split; [exact Hu|].
  pose proof (new_inside this id fh props w2) as Hin. fold r in Hin.
  pose proof (Construct_new_outside this id (CloudFunction fh props) w2)
    as (C1 & C2 & C3 & C4 & C5).
  destruct (Construct_new_building w2 this ["CloudSchedulerAPI"] id
              (CloudFunction fh props) B2
              ltac:(simpl; intuition congruence)) as [E Bs].
  rewrite E in Hin, C1, C2, C3, C4, C5. simpl snd in Hin, C1, C2, C3, C4, C5.
  pose proof (new_run w2 this id fh props Hl Hu) as (_ & _ & _ & Hb).
  cbv zeta in Hb. fold r in Hb.
  assert (Hfn : is_Some (nodes (tree (snd r)) !! (id :: this))).
  { destruct (GcpFunction.memory_out_of_limits props
              || GcpFunction.timeout_out_of_limits props);
      [|destruct Hb as [Hb _]]; destruct Hb as (_ & (n & Hn & _) & _); eauto. }
  split.
  { refine (building_inside _ _ _ _ id _ _ Hin Hfn); [exact Bs | simpl; auto]. }
  destruct Hin as (I1 & I2 & I3 & I4 & _ & I6).
  split; [rewrite I2; exact C2|]. split; [rewrite I3; exact C3|].
  split; [rewrite I1; exact C1|]. split; [rewrite I4; exact C4|].
  assert (Hapi : ~ (id :: this) `suffix_of` api).
  { intros [k Ek]. destruct k as [|x k].
    - injection Ek as Ek. congruence.
    - apply (f_equal List.length) in Ek. simpl in Ek. rewrite length_app in Ek.
      simpl in Ek. lia. }
  rewrite (proj2 (I6 api Hapi)). simpl.
  rewrite lookup_insert_ne by (unfold api; congruence).
  apply lookup_insert_eq.
Qed.

Ltac onTick_to_new Hc Hnone :=
  unfold Schedule.onTick; rewrite bind_gets;
  let E1 := fresh "E" in
  destruct (Construct_new_building _ _ [] "CloudSchedulerAPI"
              (ProjectService "cloudscheduler.googleapis.com" false)
              (childless_building _ _ Hc) ltac:(intros [])) as [E1 _];
  rewrite (bind_returned _ _ _ _ _ E1); clear E1;
  rewrite !bind_gets; cbv beta;
  match goal with
  | |- context [Schedule.get_handler (handlers (Schedule.fields ?w1 ?this))
                                     (_id ?inflight)] =>
      match type of Hnone with
      | Schedule.get_handler (handlers (Schedule.fields ?w _)) _ = None =>
          change (Schedule.get_handler (handlers (Schedule.fields w1 this))
                                       (_id inflight))
            with (Schedule.get_handler (handlers (Schedule.fields w this))
                                       (_id inflight))
      end
  end;
  rewrite Hnone; rewrite bind_makeId.

Lemma fields_of_schedules w w' (this : IConstruct) :
  schedules w' = schedules w -> Schedule.fields w' this = Schedule.fields w this.
Proof. intros E. unfold Schedule.fields. now rewrite E. Qed.


(** the first [onTick] on a schedule with nothing beneath it, with props
    that the Function accepts: what holds whatever the call at
    schedule.ts:80 does, when it returns and when it throws *)
Lemma onTick_first_run (this : IConstruct) inflight props w :
  confined addPermissionToInvoke ->
  childless (tree w) this ->
  Schedule.get_handler (handlers (Schedule.fields w this)) (_id inflight) = None ->
  Reach.heap_ok (heap w) ->
  GcpFunction.memory_out_of_limits props = false ->
  GcpFunction.timeout_out_of_limits props = false ->
  let r := Schedule.onTick addPermissionToInvoke this inflight props w in
  let id := "OnTick" +:+ Schedule.decimal (_newInstanceIds w) in
  let fn := id :: this in
  let uniqueId := Js.substring 0 8 (Node.addr (tree w) this) in
  let account := "SchedulerServiceAccount" :: this in
  let connection :=
    {| Heap.source := this; Heap.target := fn; Heap.name := "onTick()" |} in
  Construct.has (snd r) fn
  /\ Schedule.fields (snd r) this
     = mkSchedule (scheduleExpression (Schedule.fields w this))
                  (<[_id inflight := fn]> (handlers (Schedule.fields w this)))
  /\ resources (snd r) !! account
     = Some (ServiceAccount ("scheduler-" +:+ uniqueId +:+ "-sa")
                            ("Service Account for scheduler-" +:+ uniqueId))
  /\ ((exists e,
         fst r = Thrown e
         /\ building (tree (snd r)) this ["CloudSchedulerAPI"; id; "SchedulerServiceAccount"]
         /\ ((exists w0, fst (addPermissionToInvoke fn account w0) = Thrown e)
             \/ Function_from (collab w) fn = Thrown e))
      \/ (exists view,
            fst r = Returned (Schedule.FunctionObject fn)
            /\ Function_from (collab w) fn = Returned view
            /\ (exists w0, fst (addPermissionToInvoke fn account w0) = Returned tt)
            /\ building (tree (snd r)) this
                 (["CloudSchedulerAPI"; id; "SchedulerServiceAccount"]
                  ++ match view with
                     | Some _ => ["Scheduler"]
                     | None => []
                     end)
            /\ (forall v, view = Some v ->
                  resources (snd r) !! ("Scheduler" :: this)
                  = Some (CloudSchedulerJob
                      {| job_name := "scheduler-" +:+ uniqueId;
                         job_description := "Trigger " +:+ fn_name v;
                         schedule := scheduleExpression (Schedule.fields w this);
                         timeZone := "Etc/UTC";
                         attemptDeadline := "300s";
                         httpMethod := "GET";
                         uri := httpsTriggerUrl v;
                         serviceAccountEmail := attribute (collab w) account "email";
                         dependsOn := ["CloudSchedulerAPI" :: this] |}))
            /\ exists before,
                 Reach.connections (heap (snd r)) = (before ++ [connection])%list)).
Proof.
  intros HP Hc Hnone Hok Hm Ht r id0 fn uniqueId account connection. subst r id0.
  pose proof (onTick_reaches_new this inflight props w Hc) as Hreach.
  cbv zeta in Hreach.
  set (id := "OnTick" +:+ Schedule.decimal (_newInstanceIds w)) in *.
  set (w2 := bump_ids
               (set_resource ("CloudSchedulerAPI" :: this)
                  (ProjectService "cloudscheduler.googleapis.com" false)
                  (set_tree (insert_child (tree w) this "CloudSchedulerAPI") w)))
    in *.
  set (fh := convertBetweenHandlers (collab w) inflight
               "schedule.ontick.inflight.js" "ScheduleOnTickHandlerClient") in *.
  destruct Hreach as (_ & Hl & Hu & B3 & H3 & S3 & C3 & _ & _).
  pose proof (new_outcome w2 this id fh props Hl Hu) as Ho.
  cbv zeta in Ho. rewrite Hm, Ht in Ho. destruct Ho as [Ho _].
  onTick_to_new Hc Hnone.
  match goal with |- context [bind (GcpFunction.new ?a ?b ?c ?d) ?k ?ww] =>
    change (bind (GcpFunction.new a b c d) k ww)
      with (bind (GcpFunction.new this id fh props) k w2) end.
  destruct (GcpFunction.new this id fh props w2) as [o w3] eqn:E3.
  cbn [fst snd] in Ho, B3, H3, S3, C3. subst o.
  rewrite (bind_returned _ _ _ _ _ E3). clear E3.
  rewrite bind_modify.
  assert (Hacc : ~ In "SchedulerServiceAccount" ["CloudSchedulerAPI"; id]).
  { destruct (OnTick_id_head (_newInstanceIds w)) as [rest E]. unfold id.
    rewrite E. simpl. intuition discriminate. }
  match goal with |- context [bind (Construct.new this "SchedulerServiceAccount" ?r) ?k ?ww] =>
    destruct (Construct_new_building ww this _ "SchedulerServiceAccount" r B3 Hacc)
      as [E5 B5];
    rewrite (bind_returned _ k _ _ _ E5); clear E5
  end.
  cbv beta.
  change (id :: this) with fn.
  change ("SchedulerServiceAccount" :: this) with account.
  match goal with |- context [bind (addPermissionToInvoke ?f ?a) ?k ?ww] =>
    set (K := k) in *; set (w5 := ww) in * end.
  assert (B5' : building (tree w5) this
                  ["CloudSchedulerAPI"; id; "SchedulerServiceAccount"]) by exact B5.
  assert (S5 : Schedule.fields w5 this
               = mkSchedule (scheduleExpression (Schedule.fields w this))
                            (<[_id inflight := fn]> (handlers (Schedule.fields w this)))).
  { unfold w5, Schedule.fields.
    cbn [schedules set_resource set_tree set_schedule].
    rewrite lookup_insert_eq. cbn [from_option]. now rewrite S3. }
  assert (R5 : resources w5 !! account
               = Some (ServiceAccount ("scheduler-" +:+ uniqueId +:+ "-sa")
                                      ("Service Account for scheduler-" +:+ uniqueId)))
    by apply lookup_insert_eq.
  assert (C5 : collab w5 = collab w) by exact C3.
  assert (H5 : heap w5 = heap w) by exact H3.
  assert (F5 : Construct.has w5 fn).
  { destruct B5' as (_ & _ & _ & Hkids). apply Hkids. simpl. auto. }
  clear B5. clearbody w5.
  assert (Hout : ~ fn `suffix_of` account).
  { assert (Hid : id <> "SchedulerServiceAccount")
      by (destruct (OnTick_id_head (_newInstanceIds w)) as [rest E];
          unfold id; rewrite E; discriminate).
    intros [k Ek]. destruct k as [|x k].
    - injection Ek as Ek. congruence.
    - apply (f_equal List.length) in Ek. simpl in Ek. rewrite length_app in Ek.
      simpl in Ek. lia. }
  assert (Hjob : ~ In "Scheduler"
                   ["CloudSchedulerAPI"; id; "SchedulerServiceAccount"]).
  { destruct (OnTick_id_head (_newInstanceIds w)) as [rest E]. unfold id.
    rewrite E. simpl. intuition discriminate. }
  destruct (HP fn account) as [Hin Hgrow].
  specialize (Hin w5). pose proof (Hgrow w5 fn F5) as F6.
  destruct (addPermissionToInvoke fn account w5) as [o w6] eqn:EP.
  cbn [snd] in Hin, F6.
  assert (B6 : building (tree w6) this
                 ["CloudSchedulerAPI"; id; "SchedulerServiceAccount"]).
  { refine (building_inside w5 w6 this _ id B5' _ Hin F6). simpl. auto. }
  destruct Hin as (I1 & I2 & I3 & _ & _ & I6).
  assert (S6 : Schedule.fields w6 this
               = mkSchedule (scheduleExpression (Schedule.fields w this))
                            (<[_id inflight := fn]> (handlers (Schedule.fields w this))))
    by (rewrite (fields_of_schedules w5 w6 this I3); exact S5).
  assert (R6 : resources w6 !! account
               = Some (ServiceAccount ("scheduler-" +:+ uniqueId +:+ "-sa")
                                      ("Service Account for scheduler-" +:+ uniqueId)))
    by (rewrite (proj2 (I6 account Hout)); exact R5).
  assert (C6 : collab w6 = collab w) by congruence.
  assert (H6 : heap w6 = heap w) by congruence.
  clear S5 R5 C5 H5 F5 B5' I1 I2 I3 I6.
  destruct o as [[]|e].
  2: { rewrite (bind_thrown _ _ _ _ _ EP). cbn [fst snd].
       split; [exact F6|]. split; [exact S6|]. split; [exact R6|].
       left. exists e. split; [reflexivity|]. split; [exact B6|].
       left. exists w5. now rewrite EP. }
  rewrite (bind_returned _ _ _ _ _ EP). unfold K. clear K.
  rewrite bind_call. rewrite C6.
  destruct (Function_from (collab w) fn) as [[view|]|e] eqn:Ev.
  - repeat first [ rewrite bind_assoc | rewrite bind_gets | progress cbv beta iota ].
    match goal with |- context [bind (Construct.new this "Scheduler" ?r) ?k ?ww] =>
      destruct (Construct_new_building ww this _ "Scheduler" r B6 Hjob)
        as [E7 B7];
      rewrite (bind_returned _ k _ _ _ E7); clear E7
    end.
    cbv beta. rewrite !bind_ret, bind_modify. unfold ret.
    cbn [fst snd heap set_resource set_tree set_schedule].
    rewrite H6.
    destruct (Node.of_ this (heap w)) as [node h'] eqn:En.
    split.
    { unfold Construct.has. cbn [tree set_heap set_resource set_tree].
      apply insert_child_keeps, F6. }
    split.
    { unfold Schedule.fields in *.
      cbn [schedules set_heap set_resource set_tree]. exact S6. }
    split.
    { cbn [resources set_heap set_resource set_tree].
      rewrite lookup_insert_ne by (unfold account; congruence). exact R6. }
    right. exists (Some view).
    split; [reflexivity|]. split; [reflexivity|].
    split; [exists w5; now rewrite EP|].
    split; [exact B7|]. split.
    { intros v Hv. injection Hv as <-.
      cbn [resources set_heap set_resource set_tree].
      rewrite lookup_insert_eq. rewrite S6, C6. reflexivity. }
    exists (Reach.connections (heap w)).
    cbn [heap set_heap].
    rewrite (connections_addConnection h' this).
    + replace h' with (snd (Node.of_ this (heap w))) by now rewrite En.
      now rewrite connections_Node_of.
    + replace h' with (snd (Node.of_ this (heap w))) by now rewrite En.
      now apply Node_of_ok.
    + pose proof (Node_of_caches this (heap w)) as Hn. rewrite En in Hn.
      exact Hn.
  - cbv beta iota. rewrite bind_ret, bind_modify. unfold ret.
    cbn [fst snd heap set_resource set_tree set_schedule].
    rewrite H6.
    destruct (Node.of_ this (heap w)) as [node h'] eqn:En.
    split; [exact F6|]. split.
    { unfold Schedule.fields in *. cbn [schedules set_heap]. exact S6. }
    split; [exact R6|].
    right. exists None.
    split; [reflexivity|]. split; [reflexivity|].
    split; [exists w5; now rewrite EP|].
    split; [rewrite app_nil_r; exact B6|]. split; [intros v Hv; discriminate|].
    exists (Reach.connections (heap w)).
    cbn [heap set_heap].
    rewrite (connections_addConnection h' this).
    + replace h' with (snd (Node.of_ this (heap w))) by now rewrite En.
      now rewrite connections_Node_of.
    + replace h' with (snd (Node.of_ this (heap w))) by now rewrite En.
      now apply Node_of_ok.
    + pose proof (Node_of_caches this (heap w)) as Hn. rewrite En in Hn.
      exact Hn.
  - cbn [fst snd].
    split; [exact F6|]. split; [exact S6|]. split; [exact R6|].
    left. exists e. split; [reflexivity|]. split; [exact B6|]. now right.
Qed.

(** the first [onTick] with props that the Function rejects *)
Lemma onTick_rejected_run (this : IConstruct) inflight props w :
  childless (tree w) this ->
  Schedule.get_handler (handlers (Schedule.fields w this)) (_id inflight) = None ->
  GcpFunction.memory_out_of_limits props || GcpFunction.timeout_out_of_limits props
  = true ->
  let r := Schedule.onTick addPermissionToInvoke this inflight props w in
  let id := "OnTick" +:+ Schedule.decimal (_newInstanceIds w) in
  (fst r = Thrown (Error GcpFunction.MEMORY_ERROR)
   \/ fst r = Thrown (Error GcpFunction.TIMEOUT_ERROR))
  /\ schedules (snd r) = schedules w
  /\ building (tree (snd r)) this ["CloudSchedulerAPI"; id]
  /\ nodes (tree (snd r)) !! ("Default_Function" :: id :: this) = None.
Proof.
  intros Hc Hnone Hout r id0. subst r id0.
  pose proof (onTick_reaches_new this inflight props w Hc) as Hreach.
  cbv zeta in Hreach.
  set (id := "OnTick" +:+ Schedule.decimal (_newInstanceIds w)) in *.
  set (w2 := bump_ids
               (set_resource ("CloudSchedulerAPI" :: this)
                  (ProjectService "cloudscheduler.googleapis.com" false)
                  (set_tree (insert_child (tree w) this "CloudSchedulerAPI") w)))
    in *.
  set (fh := convertBetweenHandlers (collab w) inflight
               "schedule.ontick.inflight.js" "ScheduleOnTickHandlerClient") in *.
  destruct Hreach as (_ & Hl & Hu & B3 & _ & S3 & _ & _ & _).
  pose proof (new_outcome w2 this id fh props Hl Hu) as Ho.
  pose proof (new_run w2 this id fh props Hl Hu) as (_ & _ & _ & Hb).
  cbv zeta in Ho, Hb. rewrite Hout in Hb.
  onTick_to_new Hc Hnone.
  match goal with |- context [bind (GcpFunction.new ?a ?b ?c ?d) ?k ?ww] =>
    change (bind (GcpFunction.new a b c d) k ww)
      with (bind (GcpFunction.new this id fh props) k w2) end.
  destruct (GcpFunction.new this id fh props w2) as [o w3] eqn:E3.
  cbn [fst snd] in Ho, Hb, B3, S3.
  assert (He : exists e, o = Thrown e
                         /\ (e = Error GcpFunction.MEMORY_ERROR
                             \/ e = Error GcpFunction.TIMEOUT_ERROR)).
  { destruct (GcpFunction.memory_out_of_limits props); [eauto|].
    simpl in Hout. rewrite Hout in Ho. eauto. }
  destruct He as (e & -> & He).
  rewrite (bind_thrown _ _ _ _ _ E3). cbn [fst snd].
  split; [destruct He as [-> | ->]; auto|].
  split; [exact S3|]. split; [exact B3|].
  destruct Hb as (_ & _ & Hfree & _). apply Hfree. simpl. intuition discriminate.
Qed.

End OnTickFirst.

Section ConfinedFacts.
Import Constructs Synth Frame.

Lemma confined_not_a_function : confined Schedule.not_a_function.
Proof. intros f a. split; [apply preserves_throw | apply grows_throw]. Qed.

Lemma confined_ret : confined Demo.addPermissionToInvoke.
Proof. intros f a. split; [apply preserves_ret | apply grows_ret]. Qed.

End ConfinedFacts.

Section NameFacts.
Import Constructs Synth Frame.




Lemma addr_all_hex t (c : IConstruct) :
  Chars.all_chars Chars.is_lower_hex (Node.addr t c) = true.
Proof.
  unfold Node.addr, Constructs.addr, Constructs.addressOf.
  rewrite all_chars_append, hex_digest_lower. reflexivity.
Qed.


End NameFacts.

Section DemoFacts.
Import Constructs Synth Frame.

Lemma childless_demo : childless (tree Demo.world_with_schedule) ["Schedule"].
Proof.
  split; [reflexivity|]. split.
  - eexists. split; [vm_compute; reflexivity | reflexivity].
  - intros d Hd Hne. unfold Demo.world_with_schedule. cbn [tree set_schedule].
    change (tree (snd (Construct.new [] "Schedule" CloudSchedule Demo.world)))
      with (insert_child (new_tree "App") [] "Schedule").
    rewrite lookup_insert_child.
    + apply lookup_singleton_ne. intros <-.
      apply suffix_length in Hd. simpl in Hd. lia.
    + exact Hne.
    + intros ->. apply suffix_length in Hd. simpl in Hd. lia.
Qed.

End DemoFacts.

(** X7. The first [onTick] on a schedule that has nothing beneath it, with
    a handler id that is neither bound nor a member of Object.prototype and
    props that the Function accepts (the attached objects being as the
    attachment calls leave them).  [addPermissionToInvoke] is any
    computation that removes no construct and leaves alone what is not at
    or beneath the function it is called on.  Whether the call returns or
    throws at schedule.ts:80-82, the new function is a child of the
    schedule and the handler's id is bound to it (other bindings and the
    expression are as before).  If the call returns, it returns that
    function, the children of the schedule are CloudSchedulerAPI, the
    function, SchedulerServiceAccount and, when [Function.from] gave a view,
    Scheduler, in this order, and the last connection of the registry is
    "onTick()" from the schedule to the function.  If it throws, the error
    is that of [addPermissionToInvoke] or of [Function.from], and the
    schedule is left with the first three children.  It returns when
    [addPermissionToInvoke] and [Function.from] return. *)
Theorem onTick_first_call
    (addPermissionToInvoke : Constructs.IConstruct -> Constructs.IConstruct
                             -> Synth.M unit)
    (this : Constructs.IConstruct)
    (inflight : Synth.Inflight) (props : Synth.FunctionProps) (w : Synth.World) :
  Frame.confined addPermissionToInvoke ->
  Frame.childless (Synth.tree w) this ->
  Schedule.get_handler (Synth.handlers (Schedule.fields w this))
                       (Synth._id inflight) = None ->
  Reach.heap_ok (Synth.heap w) ->
  GcpFunction.memory_out_of_limits props = false ->
  GcpFunction.timeout_out_of_limits props = false ->
  let r := Schedule.onTick addPermissionToInvoke this inflight props w in
  exists id,
    let fn := id :: this in
    let account := "SchedulerServiceAccount" :: this in
    Construct.has (snd r) fn
    /\ Synth.handlers (Schedule.fields (snd r) this) !! Synth._id inflight = Some fn
    /\ (forall other, other <> Synth._id inflight ->
          Synth.handlers (Schedule.fields (snd r) this) !! other
          = Synth.handlers (Schedule.fields w this) !! other)
    /\ Synth.scheduleExpression (Schedule.fields (snd r) this)
       = Synth.scheduleExpression (Schedule.fields w this)
    /\ (forall v, fst r = Returned v ->
          v = Schedule.FunctionObject fn
          /\ (exists view,
                Synth.Function_from (Synth.collab w) fn = Returned view
                /\ Constructs.children (Synth.tree (snd r)) this
                   = (["CloudSchedulerAPI" :: this; fn; account]
                      ++ match view with
                         | Some _ => ["Scheduler" :: this]
                         | None => []
                         end)%list)
          /\ exists before,
               Reach.connections (Synth.heap (snd r))
               = (before ++ [{| Heap.source := this; Heap.target := fn;
                                Heap.name := "onTick()" |}])%list)
    /\ (forall e, fst r = Thrown e ->
          Constructs.children (Synth.tree (snd r)) this
          = ["CloudSchedulerAPI" :: this; fn; account]
          /\ ((exists w0, fst (addPermissionToInvoke fn account w0) = Thrown e)
              \/ Synth.Function_from (Synth.collab w) fn = Thrown e))
    /\ ((forall w0, fst (addPermissionToInvoke fn account w0) = Returned tt) ->
        (exists view, Synth.Function_from (Synth.collab w) fn = Returned view) ->
        fst r = Returned (Schedule.FunctionObject fn)).
Proof.
  intros HP Hc Hnone Hok Hm Ht r.
  pose proof (onTick_first_run addPermissionToInvoke this inflight props w
                HP Hc Hnone Hok Hm Ht) as (Hfn & Hf & _ & Hcases).
  cbv zeta in Hfn, Hf, Hcases. fold r in Hfn, Hf, Hcases.
  exists ("OnTick" +:+ Schedule.decimal (Synth._newInstanceIds w)). cbv zeta.
  split; [exact Hfn|].
  rewrite Hf. cbn [Synth.handlers Synth.scheduleExpression].
  split; [apply lookup_insert_eq|].
  split; [intros other Ho; now rewrite lookup_insert_ne|].
  split; [reflexivity|].
  destruct Hcases as [(e & He & Hb & Hwho) | (view & Hr & Hv & Hret & Hb & _ & Hconn)].
  - destruct (building_children _ _ _ Hb) as (Hch & _ & _ & _).
    split; [intros v Hv; congruence|]. split.
    + intros e' He'. assert (e' = e) as -> by congruence.
      split; [exact Hch | exact Hwho].
    + intros Hall [view Hv]. exfalso. destruct Hwho as [[w0 Hw0] | Hfrom].
      * rewrite Hall in Hw0. discriminate.
      * congruence.
  - destruct (building_children _ _ _ Hb) as (Hch & _ & _ & _).
    split; [|split; [intros e He; congruence | intros _ _; exact Hr]].
    intros v Hv'. split; [congruence|]. split; [|exact Hconn].
    exists view. split; [exact Hv|]. rewrite Hch. now destruct view.
Qed.

Lemma onTick_first_call_witness :
  let r := Schedule.onTick Schedule.not_a_function ["Schedule"] Demo.handler
             Demo.no_props Demo.world_with_schedule in
  let r' := Schedule.onTick Demo.addPermissionToInvoke ["Schedule"] Demo.handler
              Demo.no_props Demo.world_with_schedule in
  (exists id,
     fst r = Thrown (TypeError "cronFunction.addPermissionToInvoke is not a function")
     /\ Synth.handlers (Schedule.fields (snd r) ["Schedule"]) !! "42"
        = Some [id; "Schedule"]
     /\ Constructs.children (Synth.tree (snd r)) ["Schedule"]
        = [["CloudSchedulerAPI"; "Schedule"]; [id; "Schedule"];
           ["SchedulerServiceAccount"; "Schedule"]])
  /\ exists id, fst r' = Returned (Schedule.FunctionObject [id; "Schedule"]).
Proof.
  intros r r'. split.
  - destruct (onTick_first_call Schedule.not_a_function ["Schedule"] Demo.handler
                Demo.no_props Demo.world_with_schedule confined_not_a_function
                childless_demo eq_refl heap_ok_empty eq_refl eq_refl)
      as (id & _ & Hh & _ & _ & _ & Hthrown & _).
    assert (Hr : fst r = Thrown (TypeError
                   "cronFunction.addPermissionToInvoke is not a function"))
      by (vm_compute; reflexivity).
    exists id. split; [exact Hr|]. split; [exact Hh|].
    exact (proj1 (Hthrown _ Hr)).
  - destruct (onTick_first_call Demo.addPermissionToInvoke ["Schedule"] Demo.handler
                Demo.no_props Demo.world_with_schedule confined_ret
                childless_demo eq_refl heap_ok_empty eq_refl eq_refl)
      as (id & _ & _ & _ & _ & _ & _ & Hret).
    exists id. apply Hret; [reflexivity | eexists; reflexivity].
Defined.



(** X9. When the props are outside the Function's limits, the first
    [onTick] on a schedule that has nothing beneath it, with a handler id
    that is neither bound nor a member of Object.prototype, throws the
    Function's error after the tree has been changed, whatever
    [addPermissionToInvoke] is: the handler is not bound, but the schedule
    is left with the children CloudSchedulerAPI and the function, and the
    function without a provider function. *)
Theorem onTick_rejected_props
    (addPermissionToInvoke : Constructs.IConstruct -> Constructs.IConstruct
                             -> Synth.M unit)
    (this : Constructs.IConstruct)
    (inflight : Synth.Inflight) (props : Synth.FunctionProps) (w : Synth.World) :
  Frame.childless (Synth.tree w) this ->
  Schedule.get_handler (Synth.handlers (Schedule.fields w this))
                       (Synth._id inflight) = None ->
  GcpFunction.memory_out_of_limits props || GcpFunction.timeout_out_of_limits props
  = true ->
  let r := Schedule.onTick addPermissionToInvoke this inflight props w in
  exists id,
    let fn := id :: this in
    (fst r = Thrown (Error GcpFunction.MEMORY_ERROR)
     \/ fst r = Thrown (Error GcpFunction.TIMEOUT_ERROR))
    /\ Schedule.fields (snd r) this = Schedule.fields w this
    /\ Constructs.children (Synth.tree (snd r)) this
       = ["CloudSchedulerAPI" :: this; fn]
    /\ Forall (Construct.has (snd r)) (Constructs.children (Synth.tree (snd r)) this)
    /\ Constructs.nodes (Synth.tree (snd r)) !! ("Default_Function" :: fn) = None.
Proof.
  intros Hc Hnone Hout r.
  pose proof (onTick_rejected_run addPermissionToInvoke this inflight props w
                Hc Hnone Hout) as (He & Hs & Hb & Hd).
  cbv zeta in He, Hs, Hb, Hd. fold r in He, Hs, Hb, Hd.
  exists ("OnTick" +:+ Schedule.decimal (Synth._newInstanceIds w)). cbv zeta.
  destruct (building_children _ _ _ Hb) as (Hch & Hall & _ & _).
  split; [exact He|]. split; [now apply fields_of_schedules|].
  split; [exact Hch|]. split; [exact Hall | exact Hd].
Qed.

Lemma onTick_rejected_props_witness :
  let r := Schedule.onTick Schedule.not_a_function ["Schedule"] Demo.handler
             (Demo.with_memory 64) Demo.world_with_schedule in
  fst r = Thrown (Error GcpFunction.MEMORY_ERROR)
  /\ Schedule.fields (snd r) ["Schedule"]
     = Schedule.fields Demo.world_with_schedule ["Schedule"].
Proof.
  intros r.
  destruct (onTick_rejected_props Schedule.not_a_function ["Schedule"] Demo.handler
              (Demo.with_memory 64) Demo.world_with_schedule childless_demo
              eq_refl eq_refl)
    as (id & _ & Hf & _).
  split; [vm_compute; reflexivity | exact Hf].
Defined.

(** X10. The environment-variable name of a schedule is "SCHEDULER_JOB_"
    followed by eight characters from 0-9a-f. *)
Theorem envName_characters (t : Constructs.Tree) (this : Constructs.IConstruct) :
  exists suf,
    Schedule.envName t this = "SCHEDULER_JOB_" +:+ suf
    /\ String.length suf = 8%nat
    /\ Chars.all_chars Chars.is_lower_hex suf = true.
Proof.
  destruct (slice_last8 (Node.addr t this) (addr_length t this))
    as (pre & suf & E & _ & L & S).
  exists suf. unfold Schedule.envName. rewrite S.
  split; [reflexivity|]. split; [exact L|].
  pose proof (addr_all_hex t this) as H. rewrite E, all_chars_append in H.
  now apply andb_true_iff in H as [_ H].
Qed.

(** X11. A handler whose id names a member of Object.prototype is taken for
    bound.  On an unlocked schedule of the tree that has no child
    "CloudSchedulerAPI" and no binding of its own for the id, [onTick]
    creates that child, as the last child of the schedule, and returns the
    inherited member instead of a function: no function is created, nothing
    is bound, and no other construct or resource changes, whatever the
    props and [addPermissionToInvoke] are. *)
Theorem onTick_inherited_member
    (addPermissionToInvoke : Constructs.IConstruct -> Constructs.IConstruct
                             -> Synth.M unit)
    (this : Constructs.IConstruct)
    (inflight : Synth.Inflight) (props : Synth.FunctionProps) (w : Synth.World) :
  Construct.has w this ->
  Node.locked (Synth.tree w) this = false ->
  Constructs.nodes (Synth.tree w) !! ("CloudSchedulerAPI" :: this) = None ->
  Synth.handlers (Schedule.fields w this) !! Synth._id inflight = None ->
  In (Synth._id inflight) Js.Object_prototype ->
  let r := Schedule.onTick addPermissionToInvoke this inflight props w in
  fst r = Returned (Schedule.PrototypeMember (Synth._id inflight))
  /\ Schedule.fields (snd r) this = Schedule.fields w this
  /\ Constructs.children (Synth.tree (snd r)) this
     = (Constructs.children (Synth.tree w) this ++ ["CloudSchedulerAPI" :: this])%list
  /\ Synth.resources (snd r) !! ("CloudSchedulerAPI" :: this)
     = Some (Synth.ProjectService "cloudscheduler.googleapis.com" false)
  /\ forall d : Constructs.IConstruct, d <> "CloudSchedulerAPI" :: this ->
       Synth.resources (snd r) !! d = Synth.resources w !! d
       /\ (d <> this ->
           Constructs.nodes (Synth.tree (snd r)) !! d
           = Constructs.nodes (Synth.tree w) !! d).
Proof.
  intros [n Hn] Hl Hfree Hown Hproto r. subst r.
  assert (E : Construct.new this "CloudSchedulerAPI"
                (Synth.ProjectService "cloudscheduler.googleapis.com" false) w
              = (Returned ("CloudSchedulerAPI" :: this),
                 Synth.set_resource ("CloudSchedulerAPI" :: this)
                   (Synth.ProjectService "cloudscheduler.googleapis.com" false)
                   (Synth.set_tree
                      (Constructs.insert_child (Synth.tree w) this "CloudSchedulerAPI")
                      w))).
  { unfold Construct.new, Constructs.addChild. unfold Node.locked in Hl.
    rewrite Hl, Hfree. rewrite bool_decide_eq_false_2; [reflexivity|].
    intros [x Hx]. discriminate. }
  unfold Schedule.onTick. rewrite bind_gets.
  rewrite (bind_returned _ _ _ _ _ E). rewrite !bind_gets. cbv beta.
  match goal with
  | |- context [Schedule.get_handler (Synth.handlers (Schedule.fields ?w1 this)) ?k] =>
      change (Schedule.get_handler (Synth.handlers (Schedule.fields w1 this)) k)
        with (Schedule.get_handler (Synth.handlers (Schedule.fields w this)) k)
  end.
  unfold Schedule.get_handler. rewrite Hown.
  rewrite bool_decide_eq_true_2 by (now apply list_elem_of_In).
  unfold Synth.ret. cbn [fst snd].
  split; [reflexivity|]. split; [reflexivity|].
  split; [|split].
  - unfold Constructs.children, Constructs.node_of, Constructs.insert_child.
    cbn [Synth.tree Synth.set_resource Synth.set_tree Constructs.nodes].
    rewrite lookup_insert_ne
      by (intros Eq; apply (f_equal List.length) in Eq; simpl in Eq; lia).
    rewrite lookup_alter_eq, Hn. simpl. now rewrite map_app.
  - cbn [Synth.resources Synth.set_resource Synth.set_tree].
    apply lookup_insert_eq.
  - intros d Hd. split.
    + cbn [Synth.resources Synth.set_resource Synth.set_tree].
      now rewrite lookup_insert_ne.
    + intros Hthis. cbn [Synth.tree Synth.set_resource Synth.set_tree].
      now apply lookup_insert_child.
Qed.

Lemma onTick_inherited_member_witness :
  let toString := {| Synth._id := "toString"; Synth._toInflight := "handler" |} in
  let r := Schedule.onTick Schedule.not_a_function ["Schedule"] toString
             Demo.no_props Demo.world_with_schedule in
  fst r = Returned (Schedule.PrototypeMember "toString")
  /\ Constructs.children (Synth.tree (snd r)) ["Schedule"]
     = [["CloudSchedulerAPI"; "Schedule"]].
Proof.
  intros toString r.
  assert (Hin : Construct.has Demo.world_with_schedule ["Schedule"]).
  { apply (bool_decide_unpack _). vm_compute. exact I. }
  destruct (onTick_inherited_member Schedule.not_a_function ["Schedule"] toString
              Demo.no_props Demo.world_with_schedule Hin eq_refl eq_refl eq_refl)
    as (Hr & _ & Hch & _).
  - simpl. auto 10.
  - split; [exact Hr|]. etransitivity; [exact Hch|]. vm_compute. reflexivity.
Defined.
